(** * Schema flattening and naming transforms of the FHIR data generator

    A shallow embedding of the flattening core of
    [src/proto/generate_fhir_data.py]: the naming transforms
    ([to_snake_case], [to_camel_case], [to_pascal_case],
    [apply_case_style]), the type analysis ([unwrap_optional_and_list],
    [is_primitive_type], [is_pydantic_model]) and the recursive
    [flatten_schema].

    Conventions of the embedding.
    - A Python [str] is a [string] of ASCII characters, which is what
      field names, separators and decimal indices are made of.  The
      cased characters are [A-Z] and [a-z]; on ASCII strings the [str]
      methods of [Py] are those of Python, and the properties that
      depend on the case of a character are stated for ASCII names
      ([is_ascii]).  [Uni] has the naming transforms over code points,
      with a table for the case of a code point, for what changes
      beyond ASCII.
    - Type hints are values of the inductive [ty]; [get_origin] and
      [get_args] read them the way [typing] does.
    - Python's recursion is modelled with a recursion budget: a function
      returns [None] only when the budget is exhausted, and the theorems
      show which budget is enough.  The interpreter's own stack limit is
      not part of the model. *)

From Stdlib Require Import ZArith Ascii String.
From stdpp Require Import base option list strings gmap pretty.

Set Warnings "-register-all,-clear-no-such-hyp".
Local Open Scope Z_scope.

(** ** Python [str] methods on ASCII characters *)

Module Py.

(** [c.isupper()], [c.islower()], [c.lower()] and [c.upper()] of an
    ASCII character. *)
Definition isupper (c : ascii) : bool :=
  let n := N_of_ascii c in ((65 <=? n) && (n <=? 90))%N.

Definition islower (c : ascii) : bool :=
  let n := N_of_ascii c in ((97 <=? n) && (n <=? 122))%N.

Definition lower (c : ascii) : ascii :=
  if isupper c then ascii_of_N (N_of_ascii c + 32) else c.

Definition upper (c : ascii) : ascii :=
  if islower c then ascii_of_N (N_of_ascii c - 32) else c.

(** The characters of a [str], for indexing ([name[i]]) and
    [enumerate]. *)
Definition chars (s : string) : list ascii := list_ascii_of_string s.

(** [''.join(result)] for a list of one-character strings. *)
Definition of_chars (l : list ascii) : string := string_of_list_ascii l.

(** [enumerate(name)]. *)
Definition enumerate (name : string) : list (nat * ascii) :=
  imap pair (chars name).

(** [name[i].islower()] at an index the caller has checked to be in
    range. *)
Definition islower_at (name : string) (i : nat) : bool :=
  from_option islower false (chars name !! i).

(** [s.lower()] of an ASCII string. *)
Fixpoint lower_str (s : string) : string :=
  match s with
  | EmptyString => EmptyString
  | String c r => String (lower c) (lower_str r)
  end.

(** [word.capitalize()] of an ASCII string: first character
    upper-cased, the rest lower-cased.  (Python title-cases the first
    character, which is the same on ASCII.) *)
Definition capitalize (word : string) : string :=
  match word with
  | EmptyString => EmptyString
  | String c r => String (upper c) (lower_str r)
  end.

(** [s.split(sep)] for a one-character separator: every occurrence
    splits, empty pieces are kept, and the result is never empty. *)
Fixpoint split (sep : ascii) (s : string) : list string :=
  match s with
  | EmptyString => [EmptyString]
  | String c r =>
      if Ascii.eqb c sep then EmptyString :: split sep r
      else match split sep r with
           | w :: ws => String c w :: ws
           | [] => [String c EmptyString]
           end
  end.

(** [''.join(words)] *)
Definition join (words : list string) : string :=
  foldr String.append EmptyString words.

(** [range(n)]: empty when [n <= 0]. *)
Definition range (n : Z) : list nat := seq 0 (Z.to_nat n).

End Py.

(** ** Naming transforms *)

(** One iteration of the loop of [to_snake_case]: [result] is the list
    being appended to, [(i, char)] the current item of
    [enumerate(name)]. *)
Definition snake_step (name : string) (result : list ascii)
    (item : nat * ascii) : list ascii :=
  let '(i, char) := item in
  let result :=
    if Py.isupper char && (0 <? i)%nat &&
       (Py.islower_at name (i - 1) ||
        ((i + 1 <? String.length name)%nat && Py.islower_at name (i + 1)))
    then result ++ ["_"%char]
    else result in
  result ++ [Py.lower char].

Definition to_snake_case (name : string) : string :=
  let result := foldl (snake_step name) [] (Py.enumerate name) in
  Py.of_chars result.

Definition to_camel_case (name : string) : string :=
  let name := to_snake_case name in
  let parts := Py.split "_" name in
  hd EmptyString parts +:+ Py.join (Py.capitalize <$> tail parts).

Definition to_pascal_case (name : string) : string :=
  let name := to_snake_case name in
  Py.join (Py.capitalize <$> Py.split "_" name).

Definition apply_case_style (name : string) (style : string) : string :=
  if bool_decide (style = "snake") then to_snake_case name
  else if bool_decide (style = "camel") then to_camel_case name
  else if bool_decide (style = "pascal") then to_pascal_case name
  else name.

(** ** Type hints *)

(** The type hints a field of a pydantic model can carry: the builtin
    scalars, [NoneType], [Any], classes (pydantic models and others),
    [typing.Union[...]] and [typing.List], bare or with its element
    type. *)
Inductive ty : Type :=
| TStr
| TInt
| TFloat
| TBool
| TNoneType
| TAny
| TModel (cls : string)
| TClass (cls : string)
| TUnion (args : list ty)
| TList (arg : option ty).

Inductive origin : Type :=
| OriginNone
| OriginUnion
| OriginList.

Definition get_origin (t : ty) : origin :=
  match t with
  | TUnion _ => OriginUnion
  | TList _ => OriginList
  | _ => OriginNone
  end.

Definition get_args (t : ty) : list ty :=
  match t with
  | TUnion args => args
  | TList (Some arg) => [arg]
  | _ => []
  end.

(** [arg == type(None)] *)
Definition is_NoneType (t : ty) : bool :=
  match t with
  | TNoneType => true
  | _ => false
  end.

(** [typing.Optional[t]], that is [Union[t, None]], in the form
    [typing] gives it: the arguments of a union [t] are spliced in, a
    second [None] is dropped, and [Optional[None]] is [NoneType]. *)
Definition Optional (t : ty) : ty :=
  match t with
  | TNoneType => TNoneType
  | TUnion args =>
      if existsb is_NoneType args then t else TUnion (args ++ [TNoneType])
  | _ => TUnion [t; TNoneType]
  end.

(** [typing.List[t]] *)
Definition List_ (t : ty) : ty := TList (Some t).

(** Nesting depth of a type hint; it bounds the recursion of
    [unwrap_optional_and_list]. *)
Fixpoint ty_height (t : ty) : nat :=
  match t with
  | TUnion args => S (foldr (λ a h, ty_height a `max` h)%nat 0%nat args)
  | TList (Some arg) => S (ty_height arg)
  | _ => 1%nat
  end.

(** The body of [unwrap_optional_and_list], which returns
    [(is_optional, is_list, inner_type)].  The first argument is the
    function itself, for the two recursive calls. *)
Definition unwrap_body
    (unwrap_optional_and_list : ty → option (bool * bool * ty))
    (field_type : ty) : option (bool * bool * ty) :=
  let is_optional := false in
  let is_list := false in
  let inner_type := field_type in
  let origin := get_origin field_type in
  let args := get_args field_type in
  '(is_optional, is_list, inner_type) ←
    match origin with
    | OriginUnion =>
        let non_none_args := filter (λ arg, is_NoneType arg = false) args in
        if (length non_none_args =? 1)%nat then
          let is_optional := true in
          let inner_type := hd field_type non_none_args in
          '(_, is_list, inner_type) ← unwrap_optional_and_list inner_type;
          Some (is_optional, is_list, inner_type)
        else
          let inner_type := hd field_type non_none_args in
          Some (is_optional, is_list, inner_type)
    | _ => Some (is_optional, is_list, inner_type)
    end;
  let origin := get_origin inner_type in
  match origin with
  | OriginList =>
      let is_list := true in
      let args := get_args inner_type in
      match args with
      | arg0 :: _ =>
          let inner_type := arg0 in
          '(is_optional_elem, _, inner_type) ←
            unwrap_optional_and_list inner_type;
          Some (is_optional, is_list, inner_type)
      | [] => Some (is_optional, is_list, inner_type)
      end
  | _ => Some (is_optional, is_list, inner_type)
  end.

(** [unwrap_optional_and_list] with a budget of nested calls. *)
Fixpoint unwrap_fuel (fuel : nat) (field_type : ty)
    : option (bool * bool * ty) :=
  match fuel with
  | O => None
  | S fuel => unwrap_body (unwrap_fuel fuel) field_type
  end.

(** The budget the nesting of [field_type] asks for is always enough
    ([unwrap_optional_and_list_total]). *)
Definition unwrap_optional_and_list (field_type : ty)
    : option (bool * bool * ty) :=
  unwrap_fuel (S (ty_height field_type)) field_type.

Fixpoint is_primitive_type (type_hint : ty) : bool :=
  match type_hint with
  | TStr | TInt | TFloat | TBool | TNoneType => true
  | TUnion args => forallb is_primitive_type args
  | _ => false
  end.

Definition is_pydantic_model (cls : ty) : bool :=
  match cls with
  | TModel _ => true
  | _ => false
  end.

(** ** Models and configuration *)

(** A field of a model as [get_field_type] sees it: the attributes it
    looks for, each present or not. *)
Record field_info : Type := FieldInfo {
  outer_type_ : option ty;
  annotation : option ty;
  type_ : option ty
}.

Definition get_field_type (field_info : field_info) : ty :=
  match outer_type_ field_info with
  | Some t => t
  | None =>
      match annotation field_info with
      | Some t => t
      | None =>
          match type_ field_info with
          | Some t => t
          | None => TAny
          end
      end
  end.

(** The field dictionary of a model class, in its own order. *)
Abbreviation fields_dict := (list (string * field_info)).

(** The model classes that exist, by name. *)
Abbreviation class_table := (gmap string fields_dict).

(** [get_model_fields]: the fields of a model class, [{}] for anything
    else. *)
Definition get_model_fields (classes : class_table) (model_cls : ty)
    : fields_dict :=
  match model_cls with
  | TModel cls => default [] (classes !! cls)
  | _ => []
  end.

(** The ["schema"] section of the configuration; an absent key is
    [None]. *)
Record schema_config : Type := SchemaConfig {
  sc_max_depth : option Z;
  sc_separator : option string;
  sc_case : option string;
  sc_exclude_fields : option (list string);
  sc_include_fields : option (list string);
  sc_max_array_items : option Z
}.

Record gen_config : Type := Config {
  schema : option schema_config
}.

Definition empty_schema : schema_config :=
  SchemaConfig None None None None None None.

(** [config.get('schema', {})] and the [schema_config.get(key, default)]
    of [flatten_schema]. *)
Definition get_schema (config : gen_config) : schema_config :=
  default empty_schema (schema config).

Definition get_max_depth (config : gen_config) : Z :=
  default 3 (sc_max_depth (get_schema config)).

Definition get_separator (config : gen_config) : string :=
  default "_" (sc_separator (get_schema config)).

Definition get_case (config : gen_config) : string :=
  default "snake" (sc_case (get_schema config)).

Definition get_exclude_fields (config : gen_config) : gset string :=
  list_to_set (default [] (sc_exclude_fields (get_schema config))).

Definition get_include_fields (config : gen_config) : gset string :=
  list_to_set (default [] (sc_include_fields (get_schema config))).

Definition get_max_array_items (config : gen_config) : Z :=
  default 3 (sc_max_array_items (get_schema config)).

(** The same configuration with one key of its schema section set. *)
Definition with_max_depth (config : gen_config) (v : Z) : gen_config :=
  let sc := get_schema config in
  Config (Some (SchemaConfig (Some v) (sc_separator sc) (sc_case sc)
                  (sc_exclude_fields sc) (sc_include_fields sc)
                  (sc_max_array_items sc))).

Definition with_max_array_items (config : gen_config) (v : Z) : gen_config :=
  let sc := get_schema config in
  Config (Some (SchemaConfig (sc_max_depth sc) (sc_separator sc) (sc_case sc)
                  (sc_exclude_fields sc) (sc_include_fields sc)
                  (Some v))).

(** ** Flattening *)

(** A [for] loop whose body updates a state and may run out of
    budget. *)
Fixpoint for_each {A S : Type} (xs : list A) (body : A → S → option S)
    (s : S) : option S :=
  match xs with
  | [] => Some s
  | x :: xs => s ← body x s; for_each xs body s
  end.

(** The body of the loop over [fields.items()] in [flatten_schema]:
    what one field does to [columns].  [flatten_schema] is the function
    itself, for the recursive calls. *)
Definition flatten_field
    (flatten_schema : ty → gen_config → string → Z → option (list string))
    (config : gen_config) (prefix : string) (depth : Z)
    (item : string * field_info) (columns : list string)
    : option (list string) :=
  let separator := get_separator config in
  let case_style := get_case config in
  let exclude_fields := get_exclude_fields config in
  let include_fields := get_include_fields config in
  let max_array_items := get_max_array_items config in
  let '(field_name, field_info) := item in
  if bool_decide (field_name ∈ exclude_fields) then Some columns
  else if bool_decide (include_fields ≠ ∅) && (depth =? 0)
          && bool_decide (field_name ∉ include_fields) then Some columns
  else
    let field_type := get_field_type field_info in
    '(is_optional, is_list, inner_type) ← unwrap_optional_and_list field_type;
    let column_base :=
      if bool_decide (prefix ≠ "") then prefix +:+ separator +:+ field_name
      else field_name in
    let column_name := apply_case_style column_base case_style in
    if is_list : bool then
      if is_primitive_type inner_type then
        for_each (Py.range max_array_items) (λ i columns,
          let indexed_name :=
            apply_case_style (column_base +:+ separator +:+ pretty i)
              case_style in
          Some (columns ++ [indexed_name])) columns
      else
        for_each (Py.range max_array_items) (λ i columns,
          let indexed_prefix := column_base +:+ separator +:+ pretty i in
          if is_pydantic_model inner_type then
            cols ← flatten_schema inner_type config indexed_prefix (depth + 1);
            Some (columns ++ cols)
          else
            Some (columns ++ [apply_case_style indexed_prefix case_style]))
          columns
    else
      if is_pydantic_model inner_type then
        cols ← flatten_schema inner_type config column_base (depth + 1);
        Some (columns ++ cols)
      else
        Some (columns ++ [column_name]).

(** [flatten_schema] with a budget of nested calls. *)
Fixpoint flatten_schema (fuel : nat) (classes : class_table) (model_cls : ty)
    (config : gen_config) (prefix : string) (depth : Z)
    : option (list string) :=
  match fuel with
  | O => None
  | S fuel =>
      if depth >=? get_max_depth config then Some []
      else
        let columns := [] in
        let fields := get_model_fields classes model_cls in
        for_each fields
          (flatten_field (flatten_schema fuel classes) config prefix depth)
          columns
  end.

(** The call of the generator, [flatten_schema(resource_class, config)],
    with the budget [max_depth] asks for. *)
Definition flatten (classes : class_table) (model_cls : ty) (config : gen_config)
    : option (list string) :=
  flatten_schema (S (Z.to_nat (get_max_depth config))) classes model_cls
    config "" 0.

(** ** The example model of the specification *)

Definition plain (t : ty) : field_info := FieldInfo (Some t) None None.

(** [{name: str, address: List[Address]}] with
    [Address = {line: str}]. *)
Definition example_classes : class_table :=
  {[ "Patient" := [("name", plain TStr);
                   ("address", plain (List_ (TModel "Address")))];
     "Address" := [("line", plain TStr)] ]}.

Definition example_config (max_depth max_array_items : Z) : gen_config :=
  Config (Some (SchemaConfig (Some max_depth) (Some "_") (Some "snake")
                  None None (Some max_array_items))).

(** A configuration that names [name] both in [include_fields] and in
    [exclude_fields]. *)
Definition example_filter_config : gen_config :=
  Config (Some (SchemaConfig None None None
                  (Some ["name"]) (Some ["name"; "address"]) None)).

(** ** Definitions used to state the properties *)

(** *** The snake transform as the specification words it

    "Insert [_] before each uppercase letter that (a) is not the first
    character, and (b) is preceded by a lowercase letter OR followed by
    a lowercase letter; lowercase the entire result." *)

Definition preceded_by_lower (name : string) (i : nat) : bool :=
  match i with
  | O => false
  | S j => from_option Py.islower false (Py.chars name !! j)
  end.

Definition followed_by_lower (name : string) (i : nat) : bool :=
  from_option Py.islower false (Py.chars name !! S i).

Definition needs_underscore (name : string) (i : nat) : bool :=
  from_option Py.isupper false (Py.chars name !! i)
  && negb (i =? 0)%nat
  && (preceded_by_lower name i || followed_by_lower name i).

Definition insert_underscores (name : string) : string :=
  Py.of_chars
    (mjoin (imap (λ i c, if needs_underscore name i then ["_"%char; c] else [c])
              (Py.chars name))).

Definition snake_spec (name : string) : string :=
  Py.lower_str (insert_underscores name).

(** *** The snake transform as one pass that remembers the previous
    character *)

Fixpoint snake_chars (prev : option ascii) (l : list ascii) : list ascii :=
  match l with
  | [] => []
  | c :: r =>
      (if Py.isupper c
          && from_option
               (λ p, Py.islower p || from_option Py.islower false (head r))
               false prev
       then ["_"%char] else [])
      ++ Py.lower c :: snake_chars (Some c) r
  end.

(** *** Words and first characters *)

(** [s] with its first character upper-cased. *)
Definition upper_first (s : string) : string :=
  match s with
  | EmptyString => EmptyString
  | String c r => String (Py.upper c) r
  end.

Definition is_letter (c : ascii) : bool := Py.isupper c || Py.islower c.

Definition starts_with_letter (s : string) : bool :=
  match s with
  | EmptyString => false
  | String c _ => is_letter c
  end.

(** A word of at least two characters, all of them lowercase
    letters. *)
Definition lower_word (w : string) : bool :=
  (2 <=? String.length w)%nat && forallb Py.islower (Py.chars w).

(** No character of [l] is an uppercase letter. *)
Definition no_upper (l : list ascii) : Prop :=
  Forall (λ c, Py.isupper c = false) l.

(** The words joined with underscores between them. *)
Definition underscore_join (words : list string) : string :=
  match words with
  | [] => EmptyString
  | w :: ws => w +:+ Py.join (String "_" <$> ws)
  end.

(** *** Optional and List wrappers around an inner type *)

Inductive wrapper : Type :=
| WOptional
| WList.

Definition wrap1 (w : wrapper) (t : ty) : ty :=
  match w with
  | WOptional => Optional t
  | WList => List_ t
  end.

(** [wrap [w1; ...; wn] T] is [w1[... wn[T]]]: the head of the list is
    the outermost wrapper. *)
Definition wrap (ws : list wrapper) (T : ty) : ty := foldr wrap1 T ws.

Definition is_WOptional (w : wrapper) : bool :=
  match w with
  | WOptional => true
  | WList => false
  end.

Definition is_WList (w : wrapper) : bool := negb (is_WOptional w).

Definition has_optional (ws : list wrapper) : bool := existsb is_WOptional ws.

Definition has_list (ws : list wrapper) : bool := existsb is_WList ws.

Definition outermost_optional (ws : list wrapper) : bool :=
  from_option is_WOptional false (head ws).

(** An inner type that is not itself a wrapper: a scalar, [Any] or a
    class. *)
Definition is_atom (T : ty) : bool :=
  match T with
  | TNoneType | TUnion _ | TList _ => false
  | _ => true
  end.

(** An inner type that is not a [List] with an element type. *)
Definition unwrapped (t : ty) : Prop := ∀ a, t ≠ TList (Some a).

(** *** Fields and models *)

(** The type of [flatten_schema] once the classes are fixed. *)
Abbreviation flatten_fn :=
  (ty → gen_config → string → Z → option (list string)).

(** A field whose type unwraps with [is_list] set. *)
Definition is_list_field (field_info : field_info) : bool :=
  match unwrap_optional_and_list (get_field_type field_info) with
  | Some (_, is_list, _) => is_list
  | None => false
  end.

(** The classes with only the fields that [keep] accepts. *)
Definition keep_fields (keep : string * field_info → bool)
    (classes : class_table) : class_table :=
  filter (λ item, keep item = true) <$> classes.

(** What a field is called in its column names. *)
Definition column_base_of (config : gen_config) (prefix field_name : string)
    : string :=
  if bool_decide (prefix ≠ "")
  then prefix +:+ get_separator config +:+ field_name
  else field_name.

(** ** The rest of the column pipeline of [main] *)

(** One iteration of the loop of [main] that removes duplicate columns:
    the state is [(unique_columns, seen)]. *)
Definition dedup_step (state : list string * gset string) (col : string)
    : list string * gset string :=
  let '(unique_columns, seen) := state in
  if bool_decide (col ∉ seen) then
    let seen := {[col]} ∪ seen in
    let unique_columns := unique_columns ++ [col] in
    (unique_columns, seen)
  else (unique_columns, seen).

(** [unique_columns] after the loop over [columns]. *)
Definition unique_columns_of (columns : list string) : list string :=
  let unique_columns := [] in
  let seen := ∅ in
  (foldl dedup_step (unique_columns, seen) columns).1.

(** The same configuration with [include_fields] set. *)
Definition with_include_fields (config : gen_config) (v : list string)
    : gen_config :=
  let sc := get_schema config in
  Config (Some (SchemaConfig (sc_max_depth sc) (sc_separator sc) (sc_case sc)
                  (sc_exclude_fields sc) (Some v)
                  (sc_max_array_items sc))).

(** A bound on the number of columns of [levels] levels of models with
    at most [fields] fields each and [items] columns per list. *)
Fixpoint columns_bound (fields items levels : nat) : nat :=
  match levels with
  | O => 0
  | S levels =>
      fields * (1 `max` items) * (1 `max` columns_bound fields items levels)
  end%nat.

(** The indexed names of a list field:
    [column_base + separator + i] for [i] in [range(max_array_items)],
    in the case style of the configuration. *)
Definition indexed_names (config : gen_config) (column_base : string)
    : list string :=
  (λ i : nat, apply_case_style
                (column_base +:+ get_separator config +:+ pretty i)
                (get_case config))
  <$> Py.range (get_max_array_items config).

(** The schema section of [create_default_config]; [flatten_schema]
    reads no other section. *)
Definition create_default_config : gen_config :=
  Config (Some (SchemaConfig (Some 3) (Some "_") (Some "snake")
                  (Some ["contained"; "meta"; "extension";
                         "modifierExtension"])
                  (Some []) (Some 3))).

(** A configuration file that only names the fields to exclude, in
    another order. *)
Definition example_exclude_config : gen_config :=
  Config (Some (SchemaConfig None None None
                  (Some ["meta"; "extension"; "modifierExtension";
                         "contained"; "meta"])
                  None None)).

(** ** More [str] methods *)

Module Str.

(** [sub in s] *)
Fixpoint contains (sub s : string) : bool :=
  String.prefix sub s
  || match s with
     | EmptyString => false
     | String _ r => contains sub r
     end.

(** [s.split(sep)[0]] for a separator that is not empty: the part of
    [s] before the first occurrence of [sep], all of [s] when there is
    none. *)
Fixpoint before (sep s : string) : string :=
  if String.prefix sep s then EmptyString
  else match s with
       | EmptyString => EmptyString
       | String c r => String c (before sep r)
       end.

(** [s.endswith(suffix)] *)
Fixpoint endswith (suffix s : string) : bool :=
  String.eqb s suffix
  || match s with
     | EmptyString => false
     | String _ r => endswith suffix r
     end.

(** [sep.join(words)] *)
Fixpoint join_sep (sep : string) (words : list string) : string :=
  match words with
  | [] => EmptyString
  | w :: ws =>
      match ws with
      | [] => w
      | _ :: _ => w +:+ sep +:+ join_sep sep ws
      end
  end.

(** The digits [s] of a number that is not negative, padded with zeros
    on the left to [width] characters: the format [0<width>d]. *)
Definition zfill (width : nat) (s : string) : string :=
  Py.of_chars (replicate (width - String.length s) "0"%char) +:+ s.

(** [f"{n:0<width>d}"] *)
Definition format_0d (width : nat) (n : Z) : string :=
  if bool_decide (n < 0)
  then "-" +:+ zfill (width - 1) (pretty (Z.abs_N n))
  else zfill width (pretty (Z.to_N n)).

Definition newline : ascii := "010"%char.

End Str.

(** ** Comments in a configuration file *)

(** The loop of [load_json_config] that removes [//] comments when
    [json5] is not installed. *)
Definition remove_line_comment (line : string) : string :=
  if Str.contains "//" line then Str.before "//" line else line.

Definition remove_comments (content : string) : string :=
  let lines :=
    foldl (λ lines line, lines ++ [remove_line_comment line]) []
      (Py.split Str.newline content) in
  let cleaned_content := Str.join_sep (String Str.newline "") lines in
  cleaned_content.

(** ** The data generator *)

(** What [generate_value] returns: a string, a boolean or an integer. *)
Inductive value : Type :=
| VStr (s : string)
| VBool (b : bool)
| VInt (n : Z).

(** The state of a [FHIRDataGenerator]. *)
Record FHIRDataGenerator : Type := Generator {
  resource_name : string;
  counter : nat;
  used_ids : gset string
}.

(** [FHIRDataGenerator(resource_name)] *)
Definition new_generator (resource_name : string) : FHIRDataGenerator :=
  Generator resource_name 0 ∅.

(** What the generator takes from outside: the [random] module, [uuid]
    and the clock, over a state [rng] that every draw advances.
    [choice x xs] is [random.choice] of the list [x :: xs]. *)
Record random_source (rng : Type) : Type := RandomSource {
  choice : ∀ A : Type, A → list A → rng → A * rng;
  randint : Z → Z → rng → Z * rng;
  uuid4 : rng → string * rng;
  today : rng → string
}.
Arguments choice {rng} _ {A} _ _ _.
Arguments randint {rng} _ _ _ _.
Arguments uuid4 {rng} _ _.
Arguments today {rng} _ _.

(** [f"{self.resource_name.lower()}-{self.counter:06d}"] *)
Definition make_id (resource_name : string) (counter : nat) : string :=
  Py.lower_str resource_name +:+ "-" +:+ Str.format_0d 6 (Z.of_nat counter).

(** The [while base_id in self.used_ids] loop, with a budget of
    iterations: the counter and the id it stops at. *)
Fixpoint next_free_id (fuel : nat) (resource_name : string) (counter : nat)
    (used_ids : gset string) : option (nat * string) :=
  let base_id := make_id resource_name counter in
  if bool_decide (base_id ∈ used_ids) then
    match fuel with
    | O => None
    | S fuel => next_free_id fuel resource_name (S counter) used_ids
    end
  else Some (counter, base_id).

(** [any(term in col for term in terms)] *)
Definition any_in (terms : list string) (col : string) : bool :=
  existsb (λ term, Str.contains term col) terms.

(** The column names that take the id branch. *)
Definition is_id_column (column_name : string) : bool :=
  let col := Py.lower_str column_name in
  String.eqb col "id" || Str.endswith "_id" col.

(** [generate_value]: the value for a column, the generator afterwards
    and the random state afterwards.  [None] only when the budget of the
    id loop is used up. *)
Definition generate_value {rng : Type} (R : random_source rng)
    (self : FHIRDataGenerator) (column_name : string) (r : rng)
    : option (value * FHIRDataGenerator * rng) :=
  let resource_name := resource_name self in
  let counter := S (counter self) in
  let self := Generator resource_name counter (used_ids self) in
  let col := Py.lower_str column_name in
  if String.eqb col "id" || Str.endswith "_id" col then
    '(counter, base_id) ←
      next_free_id (size (used_ids self)) resource_name counter
        (used_ids self);
    let self :=
      Generator resource_name counter ({[base_id]} ∪ used_ids self) in
    Some (VStr base_id, self, r)
  else if String.eqb col "resource_type" then
    Some (VStr resource_name, self, r)
  else if any_in ["identifier"; "uuid"; "reference"] col then
    let '(u, r) := uuid4 R r in
    Some (VStr u, self, r)
  else if Str.contains "status" col then
    if String.eqb resource_name "Patient" then
      let '(v, r) := choice R "active" ["inactive"; "entered-in-error"] r in
      Some (VStr v, self, r)
    else if String.eqb resource_name "Observation" then
      let '(v, r) := choice R "final" ["preliminary"; "amended"] r in
      Some (VStr v, self, r)
    else
      let '(v, r) :=
        choice R "active" ["inactive"; "completed"; "draft"] r in
      Some (VStr v, self, r)
  else if any_in ["active"; "deceased"; "implicit_rules"] col then
    let '(v, r) := choice R true [false] r in
    Some (VBool v, self, r)
  else if Str.contains "date" col || Str.contains "time" col then
    if Str.contains "birth" col then
      let '(year, r) := randint R 1920 2020 r in
      let '(month, r) := randint R 1 12 r in
      let '(day, r) := randint R 1 28 r in
      Some (VStr (Str.format_0d 4 year +:+ "-" +:+ Str.format_0d 2 month
                  +:+ "-" +:+ Str.format_0d 2 day), self, r)
    else
      Some (VStr (today R r), self, r)
  else if Str.contains "given" col || Str.contains "first" col then
    let '(v, r) :=
      choice R "John" ["Jane"; "Michael"; "Sarah"; "David"; "Lisa"; "Robert";
                       "Mary"; "James"; "Jennifer"] r in
    Some (VStr v, self, r)
  else if Str.contains "family" col || Str.contains "last" col then
    let '(v, r) :=
      choice R "Smith" ["Johnson"; "Williams"; "Brown"; "Jones"; "Garcia";
                        "Miller"; "Davis"] r in
    Some (VStr v, self, r)
  else if Str.contains "email" col then
    let '(name, r) := choice R "john" ["jane"; "mike"; "sarah"] r in
    let '(domain, r) := choice R "example.com" ["test.org"; "demo.net"] r in
    Some (VStr (name +:+ pretty counter +:+ "@" +:+ domain), self, r)
  else if Str.contains "phone" col then
    let '(a, r) := randint R 200 999 r in
    let '(b, r) := randint R 200 999 r in
    let '(c, r) := randint R 1000 9999 r in
    Some (VStr ("+1-" +:+ pretty a +:+ "-" +:+ pretty b +:+ "-"
                +:+ pretty c), self, r)
  else if Str.contains "line" col || Str.contains "street" col then
    let '(n, r) := randint R 100 9999 r in
    let '(street, r) := choice R "Main" ["Oak"; "First"; "Second"] r in
    Some (VStr (pretty n +:+ " " +:+ street +:+ " St"), self, r)
  else if Str.contains "city" col then
    let '(v, r) :=
      choice R "New York" ["Los Angeles"; "Chicago"; "Houston"; "Phoenix";
                           "Philadelphia"] r in
    Some (VStr v, self, r)
  else if Str.contains "state" col then
    let '(v, r) := choice R "NY" ["CA"; "IL"; "TX"; "AZ"; "PA"] r in
    Some (VStr v, self, r)
  else if Str.contains "postal" col || Str.contains "zip" col then
    let '(n, r) := randint R 10000 99999 r in
    Some (VStr (pretty n), self, r)
  else if Str.contains "country" col then
    let '(v, r) := choice R "US" ["CA"; "GB"; "AU"] r in
    Some (VStr v, self, r)
  else if Str.contains "gender" col then
    let '(v, r) := choice R "male" ["female"; "other"; "unknown"] r in
    Some (VStr v, self, r)
  else if Str.contains "language" col then
    let '(v, r) := choice R "en" ["es"; "fr"; "de"] r in
    Some (VStr v, self, r)
  else if Str.contains "system" col then
    Some (VStr "http://terminology.hl7.org/CodeSystem/v3-ActCode", self, r)
  else if Str.contains "code" col then
    let '(n, r) := randint R 1000 9999 r in
    Some (VStr ("CODE-" +:+ pretty n), self, r)
  else if Str.contains "display" col then
    Some (VStr ("Display Text " +:+ pretty counter), self, r)
  else if Str.contains "value" col
          && (Str.contains "quantity" col || Str.contains "integer" col) then
    let '(n, r) := randint R 1 100 r in
    Some (VInt n, self, r)
  else if any_in ["text"; "description"; "note"] col then
    Some (VStr ("Sample text content " +:+ pretty counter), self, r)
  else if Str.contains "url" col then
    Some (VStr ("https://example.com/resource/" +:+ pretty counter), self, r)
  else if Str.contains "version" col then
    let '(a, r) := randint R 0 9 r in
    let '(b, r) := randint R 0 9 r in
    Some (VStr ("1." +:+ pretty a +:+ "." +:+ pretty b), self, r)
  else if any_in ["name"; "title"] col then
    Some (VStr ("Sample " +:+ resource_name +:+ " " +:+ pretty counter),
          self, r)
  else
    Some (VStr "", self, r).

(** The two loops of [main] that fill [data]: a record is a dictionary
    from column to value. *)
Definition generate_record {rng : Type} (R : random_source rng)
    (unique_columns : list string) (generator : FHIRDataGenerator) (r : rng)
    : option (gmap string value * FHIRDataGenerator * rng) :=
  let record : gmap string value := ∅ in
  for_each unique_columns
    (λ col '(record, generator, r),
       '(v, generator, r) ← generate_value R generator col r;
       Some (<[col := v]> record, generator, r))
    (record, generator, r).

Definition generate_data {rng : Type} (R : random_source rng)
    (record_count : Z) (unique_columns : list string)
    (generator : FHIRDataGenerator) (r : rng)
    : option (list (gmap string value) * FHIRDataGenerator * rng) :=
  let data := [] in
  for_each (Py.range record_count)
    (λ i '(data, generator, r),
       '(record, generator, r) ←
         generate_record R unique_columns generator r;
       Some (data ++ [record], generator, r))
    (data, generator, r).

(** A random source for examples: it always takes the first choice and
    the lower bound. *)
Definition first_choice : random_source unit :=
  RandomSource unit (λ A x xs r, (x, r)) (λ a b r, (a, r))
    (λ r, ("00000000-0000-4000-8000-000000000000", r))
    (λ r, "2026-01-01").

(** A generator whose first id is already taken. *)
Definition example_generator : FHIRDataGenerator :=
  Generator "Patient" 0 {["patient-000001"]}.

(** ** Resource names from file names *)

(** In the directory scan of [discover_fhir_resources]: the resource
    name made from the stem of a file, and the module name that is then
    imported for it. *)
Definition resource_name_of_stem (name : string) : string :=
  Py.join (Py.capitalize <$> Py.split "_" name).

Definition module_name_of_resource (resource_name : string) : string :=
  Py.lower_str resource_name.

(** *** Reading decimal digits back *)

Definition digit_value (c : ascii) : N := (N_of_ascii c - 48)%N.

(** The number that a string of decimal digits writes; zeros on the
    left do not count. *)
Definition parse_decimal (s : string) : N :=
  foldl (λ acc c, 10 * acc + digit_value c)%N 0%N (Py.chars s).

(** *** The ids a generator has given out *)

(** Every id in [used_ids] was made from a counter value that is not
    zero and not above the counter. *)
Definition ids_issued (g : FHIRDataGenerator) : Prop :=
  ∀ id, id ∈ used_ids g →
    ∃ k, (0 < k ≤ counter g)%nat ∧ id = make_id (resource_name g) k.

(** ** ASCII names *)

(** [s.isascii()]: every character is below 128.  On such names the
    [str] methods of [Py] are the ones of Python; the properties of the
    naming transforms that depend on the case of a character are stated
    for them. *)
Definition is_ascii (s : string) : bool :=
  forallb (λ c, (N_of_ascii c <? 128)%N) (Py.chars s).

(** A character below 128. *)
Abbreviation ascii_char c := ((N_of_ascii c <? 128)%N = true).

(** *** Names that the camel and pascal transforms leave unchanged *)

(** A character is set off when it is not the first one and a lowercase
    letter stands directly before it or directly after it: [prev] is
    the character before it, if any, and [r] the characters after
    it. *)
Definition set_off (prev : option ascii) (r : list ascii) : bool :=
  from_option (λ p, Py.islower p || from_option Py.islower false (head r))
    false prev.

(** Every uppercase letter of [l] is set off, where [prev] is the
    character before [l]. *)
Fixpoint capitals_set_off (prev : option ascii) (l : list ascii) : bool :=
  match l with
  | [] => true
  | c :: r =>
      (negb (Py.isupper c) || set_off prev r) && capitals_set_off (Some c) r
  end.

(** Every uppercase letter of [s] is set off. *)
Definition camel_stable (s : string) : bool :=
  capitals_set_off None (Py.chars s).

(** Every uppercase letter of [s] after its first character is set
    off. *)
Definition pascal_stable (s : string) : bool :=
  match Py.chars s with
  | [] => true
  | c :: r => capitals_set_off (Some c) r
  end.

(** *** The camel and pascal forms of a snake form, read from the left *)

(** The words of [t] capitalized and joined, when [t] starts a word. *)
Definition words_of (t : string) : string :=
  Py.join (Py.capitalize <$> Py.split "_" t).

(** The same when [t] continues a word that has started. *)
Definition rest_of_word (t : string) : string :=
  Py.lower_str (hd EmptyString (Py.split "_" t))
  +:+ Py.join (Py.capitalize <$> tail (Py.split "_" t)).

(** The camel form of a name without underscores, character by
    character: a letter that [to_snake_case] sets off comes back as a
    capital, every other character lower-cased. *)
Fixpoint restyle (prev : option ascii) (l : list ascii) : list ascii :=
  match l with
  | [] => []
  | c :: r =>
      (if Py.isupper c && set_off prev r then Py.upper (Py.lower c)
       else Py.lower c)
      :: restyle (Some c) r
  end.

(** *** One field when lists have no items

    What a field gives when [max_array_items] is [0], in the words of
    the specification: a list-typed field gives no column; a field that
    is not list-typed gives its columns as usual, those of its model or
    its one leaf column.  The fields that the filters skip give no
    column either.  [flatten_schema] is the function itself, for the
    fields that hold a model. *)
Definition columns_without_items (flatten_schema : flatten_fn)
    (config : gen_config) (prefix : string) (depth : Z)
    (item : string * field_info) : option (list string) :=
  let '(field_name, field_info) := item in
  if bool_decide (field_name ∈ get_exclude_fields config) then Some []
  else if bool_decide (get_include_fields config ≠ ∅) && (depth =? 0)
          && bool_decide (field_name ∉ get_include_fields config) then Some []
  else
    '(_, is_list, inner_type) ←
      unwrap_optional_and_list (get_field_type field_info);
    if is_list : bool then Some []
    else if is_pydantic_model inner_type then
      flatten_schema inner_type config
        (column_base_of config prefix field_name) (depth + 1)
    else
      Some [apply_case_style (column_base_of config prefix field_name)
              (get_case config)].

(** The fields of a model that give a leaf column of their own: not
    filtered out at [depth], not list-typed, and not holding a
    model. *)
Definition is_leaf_field (config : gen_config) (depth : Z)
    (item : string * field_info) : bool :=
  let '(field_name, field_info) := item in
  negb (bool_decide (field_name ∈ get_exclude_fields config))
  && negb (bool_decide (get_include_fields config ≠ ∅) && (depth =? 0)
           && bool_decide (field_name ∉ get_include_fields config))
  && match unwrap_optional_and_list (get_field_type field_info) with
     | Some (_, is_list, inner_type) =>
         negb is_list && negb (is_pydantic_model inner_type)
     | None => false
     end.

(** ** Names beyond ASCII

    The naming transforms once more, over code points, for the names
    that the strings above cannot hold.  A [str] is the list of its
    code points.  What [str.isupper], [str.islower], [str.lower],
    [str.upper] and the title-casing of [str.capitalize] do to one code
    point is read from a table, since a case mapping can give more than
    one code point. *)

Module Uni.

Abbreviation str := (list N).

Record casing : Type := Casing {
  isupper : N → bool;
  islower : N → bool;
  lower : N → str;
  upper : N → str;
  title : N → str
}.

Section transforms.

Context (U : casing).

(** [s.lower()], code point by code point.  The one rule of
    [str.lower] that looks at the neighbours of a code point, for a
    capital sigma at the end of a word, is not part of it. *)
Definition lower_str (s : str) : str := mjoin (lower U <$> s).

(** [word.capitalize()]: the first code point title-cased, the rest
    lower-cased. *)
Definition capitalize (word : str) : str :=
  match word with
  | [] => []
  | c :: r => title U c ++ lower_str r
  end.

(** [s.split(sep)] for a separator of one code point. *)
Fixpoint split (sep : N) (s : str) : list str :=
  match s with
  | [] => [[]]
  | c :: r =>
      if (c =? sep)%N then [] :: split sep r
      else match split sep r with
           | w :: ws => (c :: w) :: ws
           | [] => [[c]]
           end
  end.

(** [''.join(words)] *)
Definition join (words : list str) : str := mjoin words.

Definition islower_at (name : str) (i : nat) : bool :=
  from_option (islower U) false (name !! i).

(** One iteration of the loop of [to_snake_case]; [result] is a list of
    strings, since [char.lower()] can be longer than [char]. *)
Definition snake_step (name : str) (result : list str) (item : nat * N)
    : list str :=
  let '(i, char) := item in
  let result :=
    if isupper U char && (0 <? i)%nat &&
       (islower_at name (i - 1) ||
        ((i + 1 <? length name)%nat && islower_at name (i + 1)))
    then result ++ [[95%N]]
    else result in
  result ++ [lower U char].

Definition to_snake_case (name : str) : str :=
  let result := foldl (snake_step name) [] (imap pair name) in
  join result.

Definition to_camel_case (name : str) : str :=
  let name := to_snake_case name in
  let parts := split 95 name in
  hd [] parts ++ join (capitalize <$> tail parts).

Definition to_pascal_case (name : str) : str :=
  let name := to_snake_case name in
  join (capitalize <$> split 95 name).

(** [s] with its first code point upper-cased. *)
Definition upper_first (s : str) : str :=
  match s with
  | [] => []
  | c :: r => upper U c ++ r
  end.

End transforms.

Definition ascii_upper (c : N) : bool := ((65 <=? c) && (c <=? 90))%N.

Definition ascii_lower (c : N) : bool := ((97 <=? c) && (c <=? 122))%N.

(** The entries of Python's tables for the code points below 128 and
    for four others: U+00DF (ß, lowercase; upper [SS], title [Ss]),
    U+0130 (İ, uppercase; lower [i] and U+0307), U+01C6 (ǆ, lowercase;
    upper U+01C4, title U+01C5) and U+03D2 (ϒ, uppercase, its own
    lowercase).  The examples below are made of these code points;
    every other code point is left as one without case. *)
Definition python_casing : casing :=
  Casing
    (λ c, ascii_upper c || (c =? 304) || (c =? 978))%N
    (λ c, ascii_lower c || (c =? 223) || (c =? 454))%N
    (λ c, if ascii_upper c then [c + 32]
          else if c =? 304 then [105; 775]
          else [c])%N
    (λ c, if ascii_lower c then [c - 32]
          else if c =? 223 then [83; 83]
          else if c =? 454 then [452]
          else [c])%N
    (λ c, if ascii_lower c then [c - 32]
          else if c =? 223 then [83; 115]
          else if c =? 454 then [453]
          else [c])%N.

(** The code points of a string of the ASCII embedding. *)
Definition of_string (s : string) : str := N_of_ascii <$> Py.chars s.

End Uni.

(** ** Examples *)

Example unwrap_opt_list : unwrap_optional_and_list (Optional (List_ TStr)) = Some (true, true, TStr).
Proof. reflexivity. Qed.
Example unwrap_list_opt : unwrap_optional_and_list (List_ (Optional TStr)) = Some (false, true, TStr).
Proof. reflexivity. Qed.
Example unwrap_union : unwrap_optional_and_list (TUnion [TInt; TStr]) = Some (false, false, TInt).
Proof. reflexivity. Qed.
Example unwrap_bare_list : unwrap_optional_and_list (Optional (TList None)) = Some (true, true, TList None).
Proof. reflexivity. Qed.
Example snake_given : to_snake_case "patientGivenName" = "patient_given_name".
Proof. reflexivity. Qed.
Example snake_acronym : to_snake_case "XMLParser" = "xml_parser".
Proof. reflexivity. Qed.
Example pascal_given : to_pascal_case "patient_given_name" = "PatientGivenName".
Proof. reflexivity. Qed.
Example camel_given : to_camel_case "patient_given_name" = "patientGivenName".
Proof. reflexivity. Qed.

(** ** Characters *)

Ltac by_char c := destruct c as [[] [] [] [] [] [] [] []]; try reflexivity; try discriminate.

Lemma isupper_lower c : Py.isupper (Py.lower c) = false.
Proof. by_char c. Qed.

Lemma lower_not_upper c : Py.isupper c = false → Py.lower c = c.
Proof. unfold Py.lower. by intros ->. Qed.

Lemma lower_lower c : Py.lower (Py.lower c) = Py.lower c.
Proof. apply lower_not_upper, isupper_lower. Qed.

Lemma islower_not_upper c : Py.islower c = true → Py.isupper c = false.
Proof. by_char c. Qed.

Lemma upper_not_lower c : Py.islower c = false → Py.upper c = c.
Proof. unfold Py.upper. by intros ->. Qed.

Lemma islower_upper c : Py.islower (Py.upper c) = false.
Proof. by_char c. Qed.

Lemma upper_upper c : Py.upper (Py.upper c) = Py.upper c.
Proof. apply upper_not_lower, islower_upper. Qed.

Lemma isupper_upper c : Py.islower c = true → Py.isupper (Py.upper c) = true.
Proof. by_char c. Qed.

Lemma lower_upper c : Py.islower c = true → Py.lower (Py.upper c) = c.
Proof. by_char c. Qed.

(** ** Strings as lists of characters *)

Lemma string_app_cons c s t : String c s +:+ t = String c (s +:+ t).
Proof. reflexivity. Qed.

Lemma string_app_nil_l t : "" +:+ t = t.
Proof. reflexivity. Qed.

Lemma string_app_nil_r s : s +:+ "" = s.
Proof. induction s; [done | rewrite string_app_cons; by f_equal]. Qed.

Lemma string_app_assoc s t u : (s +:+ t) +:+ u = s +:+ t +:+ u.
Proof. induction s; [done | rewrite !string_app_cons; by f_equal]. Qed.

Lemma chars_of_chars l : Py.chars (Py.of_chars l) = l.
Proof. apply list_ascii_of_string_of_list_ascii. Qed.

Lemma of_chars_chars s : Py.of_chars (Py.chars s) = s.
Proof. apply string_of_list_ascii_of_string. Qed.

Lemma length_chars s : length (Py.chars s) = String.length s.
Proof. induction s; simpl; congruence. Qed.

Lemma of_chars_app l k : Py.of_chars (l ++ k) = Py.of_chars l +:+ Py.of_chars k.
Proof. induction l; simpl; [done | rewrite string_app_cons; by f_equal]. Qed.

Lemma chars_app s t : Py.chars (s +:+ t) = Py.chars s ++ Py.chars t.
Proof. induction s; [done | rewrite string_app_cons; simpl; by f_equal]. Qed.

Lemma lower_str_of_chars l : Py.lower_str (Py.of_chars l) = Py.of_chars (Py.lower <$> l).
Proof. induction l; simpl; [done | by f_equal]. Qed.

(** ** The loop of [to_snake_case] *)

Lemma snake_step_app name result item :
  snake_step name result item = result ++ snake_step name [] item.
Proof.
  destruct item as [i char]. unfold snake_step.
  case_match; simpl; by rewrite <- ?app_assoc.
Qed.

Lemma foldl_snake_step name result items :
  foldl (snake_step name) result items
  = result ++ mjoin (snake_step name [] <$> items).
Proof.
  revert result. induction items as [|item items IH]; intros result; simpl.
  - by rewrite app_nil_r.
  - rewrite IH, snake_step_app. by rewrite <- app_assoc.
Qed.

(** The result of the loop, piece by piece. *)
Lemma to_snake_case_pieces name :
  to_snake_case name
  = Py.of_chars (mjoin (imap (λ i c, snake_step name [] (i, c)) (Py.chars name))).
Proof.
  unfold to_snake_case, Py.enumerate.
  rewrite foldl_snake_step, fmap_imap. reflexivity.
Qed.

(** The index tests of the loop read the neighbours of position [i]. *)
Lemma snake_step_neighbours name i c :
  Py.chars name !! i = Some c →
  snake_step name [] (i, c)
  = (if Py.isupper c && negb (i =? 0)%nat
        && (preceded_by_lower name i || followed_by_lower name i)
     then ["_"%char] else []) ++ [Py.lower c].
Proof.
  intros Hi. unfold snake_step.
  assert ((0 <? i)%nat = negb (i =? 0)%nat) as ->.
  { destruct i; reflexivity. }
  assert (((i + 1 <? String.length name)%nat && Py.islower_at name (i + 1))
          = followed_by_lower name i) as ->.
  { unfold followed_by_lower, Py.islower_at.
    replace (i + 1)%nat with (S i) by lia.
    destruct (Py.chars name !! S i) as [d|] eqn:Hd; simpl.
    - apply lookup_lt_Some in Hd. rewrite length_chars in Hd.
      rewrite (proj2 (Nat.ltb_lt _ _)) by done. reflexivity.
    - apply andb_false_r. }
  destruct i as [|j]; simpl.
  - rewrite !andb_false_r. reflexivity.
  - unfold Py.islower_at. replace (j - 0)%nat with j by lia.
    destruct (Py.isupper c && true && _); reflexivity.
Qed.

Lemma fmap_mjoin_imap {A B} (h : A → B) (f : nat → A → list A)
    (g : nat → A → list B) (l : list A) :
  (∀ i x, l !! i = Some x → h <$> f i x = g i x) →
  h <$> mjoin (imap f l) = mjoin (imap g l).
Proof.
  revert f g. induction l as [|x l IH]; intros f g Hfg; simpl; [done|].
  rewrite fmap_app, (Hfg 0%nat x) by done. f_equal.
  apply IH. intros i y Hi. apply (Hfg (S i)). done.
Qed.

(** The loop agrees with the one-pass transform that remembers the
    previous character. *)
Lemma snake_pieces_chars name pre l :
  Py.chars name = pre ++ l →
  mjoin (imap (λ i c, snake_step name [] (length pre + i, c)%nat) l)
  = snake_chars (last pre) l.
Proof.
  revert pre. induction l as [|c r IH]; intros pre Hname; [done|].
  rewrite imap_cons. cbn [mjoin list_join snake_chars].
  assert (Py.chars name !! (length pre + 0)%nat = Some c) as Hc.
  { rewrite Hname, lookup_app_r by lia.
    by replace (length pre + 0 - length pre)%nat with 0%nat by lia. }
  rewrite (snake_step_neighbours _ _ _ Hc).
  assert (followed_by_lower name (length pre + 0)
          = from_option Py.islower false (head r)) as ->.
  { unfold followed_by_lower. rewrite Hname, lookup_app_r by lia.
    replace (S (length pre + 0) - length pre)%nat with 1%nat by lia.
    simpl. by rewrite head_lookup. }
  assert (negb (length pre + 0 =? 0)%nat
          && (preceded_by_lower name (length pre + 0)
              || from_option Py.islower false (head r))
          = from_option
              (λ p, Py.islower p || from_option Py.islower false (head r))
              false (last pre)) as Hprev.
  { destruct pre as [|p pre _] using rev_ind; simpl; [done|].
    rewrite last_snoc, length_app. simpl.
    replace (length pre + 1 + 0)%nat with (S (length pre)) by lia. simpl.
    rewrite Hname, <- !app_assoc, lookup_app_r by lia.
    by replace (length pre - length pre)%nat with 0%nat by lia. }
  rewrite <- andb_assoc, Hprev, <- app_assoc. f_equal. simpl. f_equal.
  specialize (IH (pre ++ [c])). rewrite last_snoc in IH.
  rewrite <- IH by (by rewrite <- app_assoc).
  f_equal. apply imap_ext. intros i x _. simpl.
  rewrite length_app. simpl.
  by replace (length pre + S i)%nat with (length pre + 1 + i)%nat by lia.
Qed.

Lemma to_snake_case_chars name :
  to_snake_case name = Py.of_chars (snake_chars None (Py.chars name)).
Proof.
  rewrite to_snake_case_pieces. f_equal.
  apply (snake_pieces_chars name [] (Py.chars name)). done.
Qed.

(** The characters the loop reads at [i - 1] and [i + 1] exist: the
    tests [i > 0] and [i + 1 < len(name)] keep the indices in range. *)
Lemma snake_step_in_range name i c :
  Py.enumerate name !! i = Some (i, c) →
  ((0 < i)%nat → is_Some (Py.chars name !! (i - 1)%nat))
  ∧ ((i + 1 < String.length name)%nat →
     is_Some (Py.chars name !! (i + 1)%nat)).
Proof.
  intros Hi%lookup_lt_Some. unfold Py.enumerate in Hi.
  rewrite length_imap in Hi. split; intros Hlt;
    apply lookup_lt_is_Some; rewrite ?length_chars in *; lia.
Qed.

(** C5. For every string, [to_snake_case] inserts an underscore before
    exactly the uppercase letters that are not the first character and
    are preceded or followed by a lowercase letter, and lowercases every
    character of the result ([snake_spec]); on the empty string it
    returns the empty string. *)
Theorem to_snake_case_meets_spec (name : string) :
  to_snake_case name = snake_spec name ∧ to_snake_case "" = "".
Proof.
  split; [|reflexivity].
  rewrite to_snake_case_pieces. unfold snake_spec, insert_underscores.
  rewrite lower_str_of_chars. f_equal. symmetry.
  apply fmap_mjoin_imap. intros i c Hi.
  rewrite snake_step_neighbours by done.
  unfold needs_underscore. rewrite Hi. simpl.
  destruct (Py.isupper c && negb (i =? 0)%nat && _); reflexivity.
Qed.

(** ** Strings without uppercase letters *)

Lemma snake_chars_no_upper prev l : no_upper (snake_chars prev l).
Proof.
  revert prev. induction l as [|c r IH]; intros prev; simpl.
  - constructor.
  - apply Forall_app. split.
    + case_match; repeat constructor.
    + constructor; [apply isupper_lower | apply IH].
Qed.

Lemma snake_chars_fixed prev l : no_upper l → snake_chars prev l = l.
Proof.
  intros H. revert prev.
  induction H as [|c r Hc _ IH]; intros prev; simpl; [done|].
  rewrite Hc, lower_not_upper by done. simpl. by rewrite IH.
Qed.

Lemma to_snake_case_no_upper name : no_upper (Py.chars (to_snake_case name)).
Proof.
  rewrite to_snake_case_chars, chars_of_chars. apply snake_chars_no_upper.
Qed.

Lemma to_snake_case_fixed name :
  no_upper (Py.chars name) → to_snake_case name = name.
Proof.
  intros H. rewrite to_snake_case_chars, snake_chars_fixed by done.
  apply of_chars_chars.
Qed.

Lemma to_snake_case_idempotent name :
  to_snake_case (to_snake_case name) = to_snake_case name.
Proof. apply to_snake_case_fixed, to_snake_case_no_upper. Qed.

Lemma lower_str_fixed s : no_upper (Py.chars s) → Py.lower_str s = s.
Proof.
  induction s as [|c s IH]; simpl; [done|].
  intros [Hc Hs]%Forall_cons. by rewrite lower_not_upper, IH.
Qed.

(** ** [split] and [join] *)

Lemma split_cons sep s : ∃ p ps, Py.split sep s = p :: ps.
Proof.
  induction s as [|c s (p & ps & IH)]; simpl; [by eauto|].
  rewrite IH. case_match; eauto.
Qed.

Lemma split_no_upper sep s :
  no_upper (Py.chars s) →
  Forall (λ w, no_upper (Py.chars w)) (Py.split sep s).
Proof.
  induction s as [|c s IH]; simpl.
  - repeat constructor.
  - intros [Hc Hs]%Forall_cons. specialize (IH Hs).
    destruct (Ascii.eqb c sep).
    + constructor; [constructor | done].
    + destruct (Py.split sep s) as [|w ws]; [repeat constructor; done|].
      apply Forall_cons in IH as [Hw Hws].
      constructor; [by constructor | done].
Qed.

Lemma join_cons w ws : Py.join (w :: ws) = w +:+ Py.join ws.
Proof. reflexivity. Qed.

Lemma upper_first_capitalized ws :
  upper_first (Py.join (Py.capitalize <$> ws)) = Py.join (Py.capitalize <$> ws).
Proof.
  induction ws as [|[|c r] ws IH]; [done | exact IH |].
  rewrite fmap_cons, join_cons. simpl. rewrite string_app_cons. simpl.
  by rewrite upper_upper.
Qed.

(** The two transforms differ only in what they do to the first part. *)
Lemma camel_pascal_parts name :
  ∃ p ps,
    Py.split "_" (to_snake_case name) = p :: ps
    ∧ no_upper (Py.chars p)
    ∧ to_camel_case name = p +:+ Py.join (Py.capitalize <$> ps)
    ∧ to_pascal_case name
      = Py.capitalize p +:+ Py.join (Py.capitalize <$> ps).
Proof.
  destruct (split_cons "_" (to_snake_case name)) as (p & ps & Hsplit).
  exists p, ps. split; [done|]. split.
  - pose proof (split_no_upper "_" _ (to_snake_case_no_upper name)) as H.
    rewrite Hsplit in H. by apply Forall_cons in H as [? _].
  - unfold to_camel_case, to_pascal_case. by rewrite Hsplit.
Qed.

Lemma to_snake_case_first c r :
  Py.isupper c = false →
  ∃ s, to_snake_case (String c r) = String c s.
Proof.
  intros Hc. rewrite to_snake_case_chars. simpl.
  rewrite Hc, lower_not_upper by done. simpl. eauto.
Qed.

Lemma capitalize_first_part name p ps :
  starts_with_letter name = false →
  Py.split "_" (to_snake_case name) = p :: ps →
  no_upper (Py.chars p) →
  Py.capitalize p = p.
Proof.
  destruct name as [|c r]; simpl.
  - intros _ [= <- <-] _. reflexivity.
  - unfold is_letter. intros [Hup Hlow]%orb_false_iff.
    destruct (to_snake_case_first c r Hup) as [s ->]. simpl.
    destruct (Ascii.eqb c "_").
    + intros [= <- <-] _. reflexivity.
    + destruct (Py.split "_" s) as [|w ws]; intros [= <- <-] Hp; simpl.
      * by rewrite upper_not_lower.
      * apply Forall_cons in Hp as [_ Hw].
        by rewrite upper_not_lower, lower_str_fixed.
Qed.

(** On the strings of this embedding, the pascal form of [x] is the
    camel form of [x] with its first character upper-cased, and the two
    are equal when [x] is empty or starts with a character that is not
    a letter. *)
Lemma pascal_camel_upper_first (x : string) :
  to_pascal_case x = upper_first (to_camel_case x)
  ∧ (starts_with_letter x = false → to_pascal_case x = to_camel_case x).
Proof.
  destruct (camel_pascal_parts x) as (p & ps & Hsplit & Hp & -> & ->).
  split.
  - destruct p as [|c r]; simpl.
    + rewrite !string_app_nil_l. by rewrite upper_first_capitalized.
    + rewrite !string_app_cons. simpl.
      apply Forall_cons in Hp as [_ Hr]. by rewrite lower_str_fixed.
  - intros Hx. by rewrite (capitalize_first_part x p ps).
Qed.

(** ** Re-applying camel and pascal to words of lowercase letters *)

Lemma snake_chars_lower_prefix prev l k :
  no_upper l → l ≠ [] →
  snake_chars prev (l ++ k) = l ++ snake_chars (last l) k.
Proof.
  intros Hl. revert prev. induction Hl as [|c r Hc _ IH]; intros prev Hne; [done|].
  simpl. rewrite Hc, lower_not_upper by done. simpl. f_equal.
  destruct r as [|d r]; [done|].
  rewrite IH by done. by rewrite last_cons_cons.
Qed.

Lemma lower_word_inv w :
  lower_word w = true →
  ∃ c d r, w = String c (String d r)
           ∧ Py.islower c = true ∧ Py.islower d = true
           ∧ Forall (λ x, Py.islower x = true) (Py.chars r).
Proof.
  unfold lower_word. intros [Hlen Hall]%andb_true_iff.
  destruct w as [|c [|d r]]; try discriminate.
  simpl in Hall. apply andb_true_iff in Hall as [Hc Hall].
  apply andb_true_iff in Hall as [Hd Hall].
  exists c, d, r. repeat split; try done.
  apply Forall_forall. intros x Hx.
  rewrite forallb_forall in Hall. apply Hall. by apply list_elem_of_In.
Qed.

Lemma islower_no_upper l :
  Forall (λ x, Py.islower x = true) l → no_upper l.
Proof. intros H. eapply Forall_impl; [exact H|]. intros x. apply islower_not_upper. Qed.

Lemma lower_word_no_upper w : lower_word w = true → no_upper (Py.chars w).
Proof.
  intros (c & d & r & -> & Hc & Hd & Hr)%lower_word_inv. simpl.
  repeat constructor; try by apply islower_not_upper.
  by apply islower_no_upper.
Qed.

Lemma snake_chars_cons prev c r :
  snake_chars prev (c :: r)
  = (if Py.isupper c
        && from_option
             (λ p, Py.islower p || from_option Py.islower false (head r))
             false prev
     then ["_"%char] else [])
    ++ Py.lower c :: snake_chars (Some c) r.
Proof. reflexivity. Qed.

(** A capitalized word of lowercase letters gets an underscore exactly
    when a character precedes it. *)
Lemma snake_chars_capitalized_word prev w k :
  lower_word w = true →
  ∃ q, snake_chars prev (Py.chars (Py.capitalize w) ++ k)
       = (if prev is Some _ then ["_"%char] else []) ++ Py.chars w
         ++ snake_chars (Some q) k.
Proof.
  intros Hw. pose proof (lower_word_no_upper w Hw) as Hnu.
  apply lower_word_inv in Hw as (c & d & r & -> & Hc & Hd & Hr).
  apply Forall_cons in Hnu as [_ Hnu].
  cbn [Py.capitalize]. rewrite (lower_str_fixed (String d r)) by done.
  assert (∃ q, last (Py.chars (String d r)) = Some q) as [q Hq].
  { destruct (last (Py.chars (String d r))) eqn:Hlast; [by eauto|].
    by apply last_None in Hlast. }
  exists q.
  change (Py.chars (String ?a ?s) ++ k) with (a :: (Py.chars s ++ k)).
  rewrite snake_chars_cons, snake_chars_lower_prefix, Hq by done.
  rewrite (isupper_upper c Hc), (lower_upper c Hc).
  destruct prev as [p|]; simpl; [|done].
  by rewrite Hd, orb_true_r.
Qed.

(** After some character, every capitalized word gets its underscore
    back. *)
Lemma snake_chars_capitalized p ws :
  forallb lower_word ws = true →
  snake_chars (Some p) (Py.chars (Py.join (Py.capitalize <$> ws)))
  = Py.chars (Py.join (String "_" <$> ws)).
Proof.
  revert p. induction ws as [|w ws IH]; intros p; [done|].
  cbn [forallb]. intros [Hw Hws]%andb_true_iff.
  rewrite !fmap_cons, !join_cons, !chars_app.
  destruct (snake_chars_capitalized_word (Some p) w
              (Py.chars (Py.join (Py.capitalize <$> ws))) Hw) as [q ->].
  by rewrite IH.
Qed.

Lemma split_word sep w :
  Forall (λ c, c ≠ sep) (Py.chars w) → Py.split sep w = [w].
Proof.
  induction w as [|c w IH]; simpl; [done|].
  intros [Hc Hw]%Forall_cons.
  rewrite (proj2 (Ascii.eqb_neq c sep)) by done. by rewrite IH.
Qed.

Lemma split_word_sep sep w t :
  Forall (λ c, c ≠ sep) (Py.chars w) →
  Py.split sep (w +:+ String sep t) = w :: Py.split sep t.
Proof.
  induction w as [|c w IH].
  - intros _. rewrite string_app_nil_l. simpl. by rewrite Ascii.eqb_refl.
  - cbn [Py.chars list_ascii_of_string]. intros [Hc Hw]%Forall_cons.
    rewrite string_app_cons. cbn [Py.split].
    rewrite (proj2 (Ascii.eqb_neq c sep)) by done. by rewrite IH.
Qed.

Lemma lower_word_no_underscore w :
  lower_word w = true → Forall (λ c, c ≠ "_"%char) (Py.chars w).
Proof.
  unfold lower_word. intros [_ Hall]%andb_true_iff.
  apply Forall_forall. intros c Hc%list_elem_of_In ->.
  rewrite forallb_forall in Hall. by specialize (Hall _ Hc).
Qed.

Lemma split_underscore_join ws :
  ws ≠ [] → forallb lower_word ws = true →
  Py.split "_" (underscore_join ws) = ws.
Proof.
  induction ws as [|w ws IH]; [done|].
  intros _. cbn [forallb]. intros [Hw Hws]%andb_true_iff.
  apply lower_word_no_underscore in Hw.
  destruct ws as [|w' ws].
  - simpl. rewrite string_app_nil_r. by apply split_word.
  - unfold underscore_join. rewrite fmap_cons, join_cons, string_app_cons.
    rewrite split_word_sep by done. f_equal. by apply IH.
Qed.

(** Both transforms of such words go back to the same snake form. *)
Lemma to_snake_case_pascal_words ws :
  forallb lower_word ws = true →
  to_snake_case (Py.join (Py.capitalize <$> ws)) = underscore_join ws.
Proof.
  destruct ws as [|w ws]; [done|].
  cbn [forallb]. intros [Hw Hws]%andb_true_iff.
  rewrite to_snake_case_chars, fmap_cons, join_cons, chars_app.
  destruct (snake_chars_capitalized_word None w
              (Py.chars (Py.join (Py.capitalize <$> ws))) Hw) as [q ->].
  rewrite snake_chars_capitalized by done.
  unfold underscore_join. by rewrite app_nil_l, <- chars_app, of_chars_chars.
Qed.

Lemma to_snake_case_camel_words w ws :
  forallb lower_word (w :: ws) = true →
  to_snake_case (w +:+ Py.join (Py.capitalize <$> ws))
  = underscore_join (w :: ws).
Proof.
  cbn [forallb]. intros [Hw Hws]%andb_true_iff.
  pose proof (lower_word_no_upper w Hw) as Hnu.
  apply lower_word_inv in Hw as (c & d & r & Hweq & _).
  rewrite to_snake_case_chars, chars_app.
  rewrite snake_chars_lower_prefix by (done || by rewrite Hweq).
  destruct (last (Py.chars w)) as [q|] eqn:Hlast.
  - rewrite snake_chars_capitalized by done.
    unfold underscore_join. by rewrite <- chars_app, of_chars_chars.
  - apply last_None in Hlast. by rewrite Hweq in Hlast.
Qed.

Lemma to_camel_case_idempotent_words x :
  forallb lower_word (Py.split "_" (to_snake_case x)) = true →
  to_camel_case (to_camel_case x) = to_camel_case x.
Proof.
  intros Hws.
  destruct (camel_pascal_parts x) as (p & ps & Hsplit & _ & Hcamel & _).
  rewrite Hsplit in Hws. rewrite Hcamel. unfold to_camel_case at 1.
  rewrite to_snake_case_camel_words, split_underscore_join by done.
  reflexivity.
Qed.

Lemma to_pascal_case_idempotent_words x :
  forallb lower_word (Py.split "_" (to_snake_case x)) = true →
  to_pascal_case (to_pascal_case x) = to_pascal_case x.
Proof.
  intros Hws.
  destruct (camel_pascal_parts x) as (p & ps & Hsplit & _ & _ & Hpascal).
  rewrite Hsplit in Hws. rewrite Hpascal.
  change (Py.capitalize p +:+ Py.join (Py.capitalize <$> ps))
    with (Py.join (Py.capitalize <$> p :: ps)).
  unfold to_pascal_case.
  rewrite to_snake_case_pascal_words, split_underscore_join by done.
  reflexivity.
Qed.

(** A condition that is enough: the camel and pascal transforms are
    idempotent on the strings whose snake form is made of words of at
    least two lowercase letters separated by single underscores, such
    as [patient_given_name] or [patientGivenName]. *)
Lemma camel_pascal_idempotent_on_words (x : string) :
  forallb lower_word (Py.split "_" (to_snake_case x)) = true →
  to_camel_case (to_camel_case x) = to_camel_case x
  ∧ to_pascal_case (to_pascal_case x) = to_pascal_case x.
Proof.
  intros Hws. split.
  - by apply to_camel_case_idempotent_words.
  - by apply to_pascal_case_idempotent_words.
Qed.

(** C2, as stated, fails for camel and for pascal: ["a_b_c"] becomes
    ["aBC"] and then ["aBc"]; ["a_b"] becomes ["AB"] and then ["Ab"].
    Beyond ASCII it fails for snake too: U+03D2 is an uppercase letter
    that is its own lowercase, so between [x] and [y] it gets one more
    underscore at every pass. *)
Lemma case_style_not_idempotent :
  apply_case_style "a_b_c" "camel" = "aBC"
  ∧ apply_case_style (apply_case_style "a_b_c" "camel") "camel" = "aBc"
  ∧ apply_case_style "a_b" "pascal" = "AB"
  ∧ apply_case_style (apply_case_style "a_b" "pascal") "pascal" = "Ab"
  ∧ ¬ (∀ x s, s ∈ ["snake"; "camel"; "pascal"] →
         apply_case_style (apply_case_style x s) s = apply_case_style x s)
  ∧ Uni.to_snake_case Uni.python_casing [120; 978; 121]%N
    = [120; 95; 978; 121]%N
  ∧ Uni.to_snake_case Uni.python_casing [120; 95; 978; 121]%N
    = [120; 95; 95; 978; 121]%N.
Proof.
  repeat split; try reflexivity.
  intros H. specialize (H "a_b_c" "camel"). 
  assert ("camel" ∈ ["snake"; "camel"; "pascal"]) as Hin by set_solver.
  specialize (H Hin). vm_compute in H. discriminate H.
Qed.

(** ** The recursion of [unwrap_optional_and_list] *)

Lemma unwrap_body_mono (rec rec' : ty → option (bool * bool * ty)) t r :
  (∀ x y, rec x = Some y → rec' x = Some y) →
  unwrap_body rec t = Some r → unwrap_body rec' t = Some r.
Proof.
  intros Hrec. unfold unwrap_body.
  repeat first
    [ done
    | progress simpl
    | match goal with
      | |- context [rec ?x] =>
          let E := fresh in
          destruct (rec x) as [[[??]?]|] eqn:E; [rewrite (Hrec _ _ E)|]
      | |- context [match get_origin ?x with _ => _ end] =>
          destruct (get_origin x)
      | |- context [if ?b then _ else _] => destruct b
      | |- context [match get_args ?x with _ => _ end] =>
          destruct (get_args x)
      end ].
Qed.

Lemma unwrap_fuel_S n t r :
  unwrap_fuel n t = Some r → unwrap_fuel (S n) t = Some r.
Proof.
  revert t r. induction n as [|n IH]; intros t r; [done|].
  cbn [unwrap_fuel]. apply unwrap_body_mono. exact IH.
Qed.

Lemma unwrap_fuel_mono n m t r :
  (n ≤ m)%nat → unwrap_fuel n t = Some r → unwrap_fuel m t = Some r.
Proof.
  induction 1 as [|m _ IH]; [done|]. intros H. by apply unwrap_fuel_S, IH.
Qed.

Lemma ty_height_pos t : (1 ≤ ty_height t)%nat.
Proof. destruct t as [| | | | | | | | |[]]; simpl; lia. Qed.

Lemma ty_height_union_arg x args :
  x ∈ args → (ty_height x < ty_height (TUnion args))%nat.
Proof.
  simpl. induction 1 as [x args|x y args _ IH]; simpl; lia.
Qed.

Lemma hd_filter_elem (P : ty → Prop) `{!∀ x, Decision (P x)} d args :
  filter P args ≠ [] → hd d (filter P args) ∈ args.
Proof.
  destruct (filter P args) as [|x l] eqn:Hf; [done|]. intros _. simpl.
  assert (x ∈ filter P args) as Hx by (rewrite Hf; left).
  by apply list_elem_of_filter in Hx as [_ ?].
Qed.

Lemma unwrap_fuel_total n t :
  (ty_height t ≤ n)%nat →
  ∃ is_optional is_list inner_type,
    unwrap_fuel n t = Some (is_optional, is_list, inner_type)
    ∧ unwrapped inner_type.
Proof.
  revert t. induction n as [|n IH]; intros t Hn.
  { pose proof (ty_height_pos t). lia. }
  cbn [unwrap_fuel]. unfold unwrap_body.
  destruct t as [| | | | | |cls|cls|args|[a|]];
    try (by eexists _, _, _; split; [reflexivity | intros ?]).
  - (* Union *)
    cbn [get_origin get_args].
    set (non_none_args := filter (λ arg, is_NoneType arg = false) args).
    assert (non_none_args ≠ [] →
            (ty_height (hd (TUnion args) non_none_args) ≤ n)%nat) as Hhd.
    { intros Hne.
      pose proof (ty_height_union_arg _ _ (hd_filter_elem _ (TUnion args) args Hne)).
      subst non_none_args. lia. }
    destruct (length non_none_args =? 1)%nat eqn:Hlen.
    + destruct (IH (hd (TUnion args) non_none_args)) as (o & l & i & -> & Hi).
      { apply Hhd. intros E. by rewrite E in Hlen. }
      simpl. destruct i as [| | | | | |cls|cls|args'|[a|]];
        try (by eexists _, _, _; split; [reflexivity | intros ?]).
      by destruct (Hi a).
    + simpl. destruct non_none_args as [|x xs] eqn:Hx; simpl.
      { by eexists _, _, _; split; [reflexivity | intros ?]. }
      specialize (Hhd ltac:(done)). simpl in Hhd.
      destruct x as [| | | | | |cls|cls|args'|[a|]];
        try (by eexists _, _, _; split; [reflexivity | intros ?]).
      simpl. destruct (IH a) as (o & l & i & -> & Hi).
      { simpl in Hhd. lia. }
      simpl. by eexists _, _, _.
  - (* List[a] *)
    simpl. destruct (IH a) as (o & l & i & -> & Hi).
    { simpl in Hn. lia. }
    simpl. by eexists _, _, _.
Qed.

Lemma unwrap_optional_and_list_total t :
  ∃ is_optional is_list inner_type,
    unwrap_optional_and_list t = Some (is_optional, is_list, inner_type).
Proof.
  destruct (unwrap_fuel_total (S (ty_height t)) t) as (o & l & i & H & _).
  { lia. }
  by exists o, l, i.
Qed.

(** Any budget that gives a result gives the result of
    [unwrap_optional_and_list]. *)
Lemma unwrap_optional_and_list_fuel n t r :
  unwrap_fuel n t = Some r → unwrap_optional_and_list t = Some r.
Proof.
  intros Hn.
  destruct (unwrap_optional_and_list_total t) as (o & l & i & H).
  rewrite H. unfold unwrap_optional_and_list in H.
  apply (unwrap_fuel_mono _ (n `max` S (ty_height t))) in H; [|lia].
  apply (unwrap_fuel_mono _ (n `max` S (ty_height t))) in Hn; [|lia].
  congruence.
Qed.

(** ** Optional and List wrappers *)

Lemma Optional_idempotent t : Optional (Optional t) = Optional t.
Proof.
  destruct t as [| | | | | |cls|cls|args|a]; try reflexivity.
  simpl. destruct (existsb is_NoneType args) eqn:Hex; simpl.
  - by rewrite Hex.
  - by rewrite existsb_app, orb_true_r.
Qed.

Lemma unwrap_fuel_wrap ws T n :
  is_atom T = true → (length ws < n)%nat →
  unwrap_fuel n (wrap ws T) = Some (outermost_optional ws, has_list ws, T).
Proof.
  intros HT. revert n.
  induction ws as [|w ws IH]; intros n Hn; (destruct n as [|n]; [simpl in Hn; lia|]).
  - by destruct T.
  - destruct w.
    + (* Optional[...] *)
      destruct ws as [|[|] ws'].
      * destruct n as [|n]; [simpl in Hn; lia|]. by destruct T.
      * cbn [wrap foldr wrap1]. rewrite Optional_idempotent.
        apply (IH (S n)). simpl in *. lia.
      * change (wrap (WOptional :: WList :: ws') T)
          with (TUnion [TList (Some (wrap ws' T)); TNoneType]).
        cbn [unwrap_fuel]. unfold unwrap_body at 1.
        cbn [get_origin get_args]. simpl filter.
        cbn [length Nat.eqb hd].
        change (TList (Some (wrap ws' T))) with (wrap (WList :: ws') T).
        rewrite IH by (simpl in *; lia).
        simpl. by destruct T.
    + (* List[...] *)
      change (wrap (WList :: ws) T) with (TList (Some (wrap ws T))).
      cbn [unwrap_fuel]. unfold unwrap_body at 1. simpl.
      rewrite IH by (simpl in *; lia). reflexivity.
Qed.

(** C1, as the code has it.  For every type built by nesting Optional
    and List wrappers in any order around an inner type [T] (a scalar,
    [Any] or a class), [unwrap_optional_and_list] returns
    [is_optional = true] if and only if the outermost layer is an
    Optional, [is_list = true] if and only if a List layer is present
    anywhere in the nesting, and [inner_type = T]. *)
Theorem unwrap_optional_and_list_wrap (ws : list wrapper) (T : ty) :
  is_atom T = true →
  unwrap_optional_and_list (wrap ws T)
  = Some (outermost_optional ws, has_list ws, T).
Proof.
  intros HT. apply (unwrap_optional_and_list_fuel (S (length ws))).
  apply unwrap_fuel_wrap; [done | lia].
Qed.

Lemma unwrap_optional_and_list_wrap_witness :
  is_atom (TModel "Address") = true
  ∧ unwrap_optional_and_list (Optional (List_ (Optional (TModel "Address"))))
    = Some (true, true, TModel "Address").
Proof.
  split; [reflexivity|].
  apply (unwrap_optional_and_list_wrap [WOptional; WList; WOptional]
           (TModel "Address")).
  reflexivity.
Defined.

(** C1, as stated, fails: a List of Optional of [str] has an Optional
    layer, and unwraps to [(false, true, str)], not
    [(true, true, str)]. *)
Lemma unwrap_list_of_optional :
  wrap [WList; WOptional] TStr = List_ (Optional TStr)
  ∧ has_optional [WList; WOptional] = true
  ∧ unwrap_optional_and_list (List_ (Optional TStr)) = Some (false, true, TStr)
  ∧ unwrap_optional_and_list (List_ (Optional TStr)) ≠ Some (true, true, TStr).
Proof. repeat split; try reflexivity. discriminate. Qed.

(** ** Loops *)

Section for_each.
Context {A S : Type}.
Implicit Types (xs : list A) (body : A → S → option S) (s : S).

Lemma for_each_ext xs body body' s :
  (∀ x s, x ∈ xs → body x s = body' x s) →
  for_each xs body s = for_each xs body' s.
Proof.
  revert s. induction xs as [|x xs IH]; intros s Hbody; simpl; [done|].
  rewrite Hbody by left. destruct (body' x s) as [s'|]; simpl; [|done].
  apply IH. intros y t Hy. apply Hbody. by right.
Qed.

Lemma for_each_mono xs body body' s r :
  (∀ x s s', body x s = Some s' → body' x s = Some s') →
  for_each xs body s = Some r → for_each xs body' s = Some r.
Proof.
  intros Hbody. revert s. induction xs as [|x xs IH]; intros s; simpl; [done|].
  destruct (body x s) as [s'|] eqn:Hx; simpl; [|done].
  rewrite (Hbody _ _ _ Hx). simpl. apply IH.
Qed.

Lemma for_each_total xs body s :
  (∀ x s, is_Some (body x s)) → is_Some (for_each xs body s).
Proof.
  intros Hbody. revert s. induction xs as [|x xs IH]; intros s; simpl; [by eauto|].
  destruct (Hbody x s) as [s' ->]. simpl. apply IH.
Qed.

Lemma for_each_filter (P : A → Prop) `{!∀ x, Decision (P x)} xs body s :
  (∀ x s, ¬ P x → body x s = Some s) →
  for_each (filter P xs) body s = for_each xs body s.
Proof.
  intros Hskip. revert s. induction xs as [|x xs IH]; intros s; [done|].
  rewrite filter_cons. destruct (decide (P x)) as [HP|HP]; simpl.
  - destruct (body x s); simpl; [apply IH | done].
  - rewrite (Hskip _ _ HP). simpl. apply IH.
Qed.

End for_each.

(** ** Configuration updates *)

Lemma get_max_depth_with_max_depth config v :
  get_max_depth (with_max_depth config v) = v.
Proof. reflexivity. Qed.

Lemma get_max_array_items_with_max_array_items config v :
  get_max_array_items (with_max_array_items config v) = v.
Proof. reflexivity. Qed.

Lemma range_nonpositive n : n ≤ 0 → Py.range n = [].
Proof. intros Hn. unfold Py.range. by replace (Z.to_nat n) with 0%nat by lia. Qed.

(** ** One field of the loop of [flatten_schema] *)

Lemma flatten_field_mono (rec rec' : flatten_fn) config prefix depth item columns r :
  (∀ m c p d y, rec m c p d = Some y → rec' m c p d = Some y) →
  flatten_field rec config prefix depth item columns = Some r →
  flatten_field rec' config prefix depth item columns = Some r.
Proof.
  intros Hrec. unfold flatten_field. destruct item as [field_name field_info].
  destruct (bool_decide _); [done|]. destruct (_ && _); [done|].
  destruct (unwrap_optional_and_list _) as [[[o l] i]|]; [simpl|done].
  assert (∀ m c p d (k : list string → option (list string)) y,
            rec m c p d ≫= k = Some y → rec' m c p d ≫= k = Some y) as Hbind.
  { intros m c p d k y. destruct (rec m c p d) as [z|] eqn:Hz; [|done].
    by rewrite (Hrec _ _ _ _ _ Hz). }
  destruct l.
  - destruct (is_primitive_type i); [done|].
    apply for_each_mono. intros x s s'.
    destruct (is_pydantic_model i); [apply Hbind | done].
  - destruct (is_pydantic_model i); [apply Hbind | done].
Qed.

Lemma flatten_field_ext (rec rec' : flatten_fn) config prefix depth item columns :
  (∀ m p d, rec m config p d = rec' m config p d) →
  flatten_field rec config prefix depth item columns
  = flatten_field rec' config prefix depth item columns.
Proof.
  intros Hrec. unfold flatten_field. destruct item as [field_name field_info].
  destruct (bool_decide _); [done|]. destruct (_ && _); [done|].
  destruct (unwrap_optional_and_list _) as [[[o l] i]|]; [simpl|done].
  destruct l.
  - destruct (is_primitive_type i); [done|].
    apply for_each_ext. intros x s _. by rewrite Hrec.
  - by rewrite Hrec.
Qed.

Lemma flatten_field_total (rec : flatten_fn) config prefix depth item columns :
  (∀ m p, is_Some (rec m config p (depth + 1))) →
  is_Some (flatten_field rec config prefix depth item columns).
Proof.
  intros Hrec. unfold flatten_field. destruct item as [field_name field_info].
  destruct (bool_decide _); [by eauto|]. destruct (_ && _); [by eauto|].
  destruct (unwrap_optional_and_list_total (get_field_type field_info))
    as (o & l & i & ->). simpl.
  assert (∀ p s, is_Some (rec i config p (depth + 1)
                          ≫= λ cols, Some (s ++ cols))) as Hbind.
  { intros p s. destruct (Hrec i p) as [cols ->]. by eauto. }
  destruct l.
  - destruct (is_primitive_type i); apply for_each_total; intros x s;
      [by eauto|]. destruct (is_pydantic_model i); [apply Hbind | by eauto].
  - destruct (is_pydantic_model i); [apply Hbind | by eauto].
Qed.

(** ** Termination of [flatten_schema] *)

Lemma flatten_schema_S fuel classes model_cls config prefix depth r :
  flatten_schema fuel classes model_cls config prefix depth = Some r →
  flatten_schema (S fuel) classes model_cls config prefix depth = Some r.
Proof.
  revert model_cls config prefix depth r.
  induction fuel as [|fuel IH]; intros model_cls config prefix depth r; [done|].
  cbn [flatten_schema]. destruct (_ >=? _); [done|].
  apply for_each_mono. intros item s s'. apply flatten_field_mono.
  intros m c p d y. apply IH.
Qed.

Lemma flatten_schema_mono fuel fuel' classes model_cls config prefix depth r :
  (fuel ≤ fuel')%nat →
  flatten_schema fuel classes model_cls config prefix depth = Some r →
  flatten_schema fuel' classes model_cls config prefix depth = Some r.
Proof.
  induction 1 as [|fuel' _ IH]; [done|]. intros H. by apply flatten_schema_S, IH.
Qed.

Lemma flatten_schema_total fuel classes model_cls config prefix depth :
  (Z.to_nat (get_max_depth config - depth) < fuel)%nat →
  is_Some (flatten_schema fuel classes model_cls config prefix depth).
Proof.
  revert model_cls prefix depth.
  induction fuel as [|fuel IH]; intros model_cls prefix depth Hfuel; [lia|].
  cbn [flatten_schema]. destruct (depth >=? get_max_depth config) eqn:Hcut.
  - by eauto.
  - apply for_each_total. intros item s. apply flatten_field_total.
    intros m p. apply IH. lia.
Qed.

(** C6. For every model and every configuration with [max_depth ≥ 0]
    and [max_array_items ≥ 0], [flatten_schema] terminates with a list
    of columns: a budget of [max_depth - depth + 1] nested calls is
    enough, and every larger budget gives the same list. *)
Theorem flatten_schema_terminates (classes : class_table) (model_cls : ty)
    (config : gen_config) (prefix : string) (depth : Z) :
  0 ≤ get_max_depth config → 0 ≤ get_max_array_items config →
  ∃ columns, ∀ fuel,
    (Z.to_nat (get_max_depth config - depth) < fuel)%nat →
    flatten_schema fuel classes model_cls config prefix depth = Some columns.
Proof.
  intros _ _.
  destruct (flatten_schema_total (S (Z.to_nat (get_max_depth config - depth)))
              classes model_cls config prefix depth) as [columns Hcolumns].
  { lia. }
  exists columns. intros fuel Hfuel.
  apply (flatten_schema_mono (S (Z.to_nat (get_max_depth config - depth))));
    [lia | done].
Qed.

Lemma flatten_schema_terminates_witness :
  0 ≤ get_max_depth (example_config 2 2)
  ∧ 0 ≤ get_max_array_items (example_config 2 2)
  ∧ ∃ columns, ∀ fuel,
      (Z.to_nat (get_max_depth (example_config 2 2) - 0) < fuel)%nat →
      flatten_schema fuel example_classes (TModel "Patient")
        (example_config 2 2) "" 0 = Some columns.
Proof.
  split; [compute; congruence|]. split; [compute; congruence|].
  apply (flatten_schema_terminates example_classes (TModel "Patient")
           (example_config 2 2) "" 0); compute; congruence.
Defined.

(** C4. The example model with [max_depth = 2], [max_array_items = 2],
    separator ["_"] and snake case flattens to [name], [address_0_line],
    [address_1_line], in that order. *)
Theorem flatten_example_depth_2 :
  flatten example_classes (TModel "Patient") (example_config 2 2)
  = Some ["name"; "address_0_line"; "address_1_line"].
Proof. vm_compute. reflexivity. Qed.

(** C3. The same model with [max_depth = 1] flattens to [name] alone:
    the recursive calls for [address_0] and [address_1] are at the depth
    cutoff and return no column. *)
Theorem flatten_example_depth_1 :
  flatten example_classes (TModel "Patient") (example_config 1 2)
  = Some ["name"]
  ∧ ∀ fuel prefix,
      flatten_schema (S fuel) example_classes (TModel "Address")
        (example_config 1 2) prefix 1 = Some [].
Proof. split; [vm_compute; reflexivity | reflexivity]. Qed.

(** ** Fields that contribute nothing *)

Lemma get_model_fields_keep_fields keep classes model_cls :
  get_model_fields (keep_fields keep classes) model_cls
  = filter (λ item, keep item = true) (get_model_fields classes model_cls).
Proof.
  destruct model_cls; try reflexivity. unfold get_model_fields, keep_fields.
  rewrite lookup_fmap. by destruct (classes !! cls).
Qed.

(** If the fields that [keep] rejects leave [columns] as it is, they
    can be removed from every class. *)
Lemma flatten_schema_keep_fields keep config classes :
  (∀ (rec : flatten_fn) prefix depth item columns,
     keep item = false →
     flatten_field rec config prefix depth item columns = Some columns) →
  ∀ fuel model_cls prefix depth,
    flatten_schema fuel (keep_fields keep classes) model_cls config prefix depth
    = flatten_schema fuel classes model_cls config prefix depth.
Proof.
  intros Hskip. induction fuel as [|fuel IH]; intros model_cls prefix depth;
    [done|].
  cbn [flatten_schema]. destruct (_ >=? _); [done|].
  rewrite get_model_fields_keep_fields.
  rewrite for_each_filter.
  - apply for_each_ext. intros item s _. by apply flatten_field_ext.
  - intros item s Hitem. apply Hskip. by destruct (keep item).
Qed.

Lemma flatten_field_excluded (rec : flatten_fn) config prefix depth
    field_name field_info columns :
  field_name ∈ get_exclude_fields config →
  flatten_field rec config prefix depth (field_name, field_info) columns
  = Some columns.
Proof. intros Hex. unfold flatten_field. by rewrite bool_decide_true. Qed.

(** C8. A field whose name is in both [include_fields] and
    [exclude_fields] gives no column, at every depth: the loop leaves
    [columns] as it is, and the result is that of the classes without
    the fields of that name. *)
Theorem excluded_wins_over_included (config : gen_config)
    (field_name : string) :
  field_name ∈ get_include_fields config →
  field_name ∈ get_exclude_fields config →
  (∀ (rec : flatten_fn) prefix depth field_info columns,
     flatten_field rec config prefix depth (field_name, field_info) columns
     = Some columns)
  ∧ (∀ fuel classes model_cls prefix depth,
       flatten_schema fuel classes model_cls config prefix depth
       = flatten_schema fuel
           (keep_fields (λ item, bool_decide (item.1 ≠ field_name)) classes)
           model_cls config prefix depth).
Proof.
  intros _ Hex. split.
  - intros. by apply flatten_field_excluded.
  - intros. symmetry. apply flatten_schema_keep_fields.
    intros rec p d [name info] columns Hname. simpl in Hname.
    apply bool_decide_eq_false in Hname.
    assert (name = field_name) as -> by (by destruct (decide (name = field_name))).
    by apply flatten_field_excluded.
Qed.

Lemma excluded_wins_over_included_witness :
  "name" ∈ get_include_fields example_filter_config
  ∧ "name" ∈ get_exclude_fields example_filter_config
  ∧ flatten_field (flatten_schema 3 example_classes) example_filter_config
      "" 0 ("name", plain TStr) [] = Some [].
Proof.
  assert ("name" ∈ get_include_fields example_filter_config) as Hin
    by (by vm_compute).
  assert ("name" ∈ get_exclude_fields example_filter_config) as Hex
    by (by vm_compute).
  split; [exact Hin|]. split; [exact Hex|].
  apply (proj1 (excluded_wins_over_included example_filter_config "name"
                  Hin Hex)).
Defined.

(** ** [max_array_items] *)

Lemma flatten_field_list_no_items (rec : flatten_fn) config prefix depth
    field_name field_info columns :
  get_max_array_items config ≤ 0 →
  is_list_field field_info = true →
  flatten_field rec config prefix depth (field_name, field_info) columns
  = Some columns.
Proof.
  intros Hitems. unfold is_list_field, flatten_field.
  destruct (unwrap_optional_and_list _) as [[[o l] i]|]; [|done].
  intros ->. destruct (bool_decide _); [done|]. destruct (_ && _); [done|].
  simpl. rewrite range_nonpositive by done.
  by destruct (is_primitive_type i).
Qed.

Lemma flatten_field_not_list (rec : flatten_fn) config prefix depth
    field_name field_info columns is_optional inner_type :
  field_name ∉ get_exclude_fields config →
  get_include_fields config = ∅ ∨ depth ≠ 0
    ∨ field_name ∈ get_include_fields config →
  unwrap_optional_and_list (get_field_type field_info)
    = Some (is_optional, false, inner_type) →
  flatten_field rec config prefix depth (field_name, field_info) columns
  = if is_pydantic_model inner_type then
      cols ← rec inner_type config (column_base_of config prefix field_name)
               (depth + 1);
      Some (columns ++ cols)
    else
      Some (columns
            ++ [apply_case_style (column_base_of config prefix field_name)
                  (get_case config)]).
Proof.
  intros Hex Hin Hunwrap. unfold flatten_field.
  rewrite bool_decide_false by done.
  assert (bool_decide (get_include_fields config ≠ ∅) && (depth =? 0)
          && bool_decide (field_name ∉ get_include_fields config) = false)
    as ->.
  { destruct Hin as [Hin|[Hin|Hin]].
    - by rewrite bool_decide_false by (by intros []).
    - rewrite (proj2 (Z.eqb_neq depth 0)) by done. by rewrite andb_false_r.
    - rewrite (bool_decide_false (_ ∉ _)) by (by intros []).
      by rewrite andb_false_r. }
  by rewrite Hunwrap.
Qed.

Example flatten_example_no_items :
  flatten example_classes (TModel "Patient") (example_config 2 0)
  = Some ["name"].
Proof. vm_compute. reflexivity. Qed.

(** ** Negative configuration values *)

Lemma flatten_schema_cutoff fuel classes model_cls config prefix depth :
  get_max_depth config ≤ depth →
  flatten_schema (S fuel) classes model_cls config prefix depth = Some [].
Proof.
  intros Hcut. cbn [flatten_schema].
  by rewrite (proj2 (Z.geb_le depth (get_max_depth config))).
Qed.

Lemma flatten_field_items_nonpositive (rec : flatten_fn) config prefix depth
    item columns :
  get_max_array_items config ≤ 0 →
  (∀ m p d, rec m config p d = rec m (with_max_array_items config 0) p d) →
  flatten_field rec config prefix depth item columns
  = flatten_field rec (with_max_array_items config 0) prefix depth item
      columns.
Proof.
  intros Hitems Hrec. unfold flatten_field. destruct item as [name info].
  change (get_separator (with_max_array_items config 0))
    with (get_separator config).
  change (get_case (with_max_array_items config 0)) with (get_case config).
  change (get_exclude_fields (with_max_array_items config 0))
    with (get_exclude_fields config).
  change (get_include_fields (with_max_array_items config 0))
    with (get_include_fields config).
  rewrite get_max_array_items_with_max_array_items.
  destruct (bool_decide _); [done|]. destruct (_ && _); [done|].
  destruct (unwrap_optional_and_list _) as [[[o l] i]|]; [simpl|done].
  rewrite (range_nonpositive (get_max_array_items config)) by done.
  destruct l; [by destruct (is_primitive_type i)|].
  by rewrite Hrec.
Qed.

Lemma flatten_schema_items_nonpositive fuel classes model_cls config prefix
    depth :
  get_max_array_items config ≤ 0 →
  flatten_schema fuel classes model_cls config prefix depth
  = flatten_schema fuel classes model_cls (with_max_array_items config 0)
      prefix depth.
Proof.
  intros Hitems. revert model_cls prefix depth.
  induction fuel as [|fuel IH]; intros model_cls prefix depth; [done|].
  cbn [flatten_schema].
  change (get_max_depth (with_max_array_items config 0))
    with (get_max_depth config).
  destruct (_ >=? _); [done|].
  apply for_each_ext. intros item s _.
  by apply flatten_field_items_nonpositive.
Qed.

Lemma flatten_total classes model_cls config :
  is_Some (flatten classes model_cls config).
Proof. apply flatten_schema_total. lia. Qed.

(** C9. Negative configuration values act as 0.  With a negative
    [max_depth] the result is the empty list, as it is with
    [max_depth = 0]; with a negative [max_array_items] the result is the
    list of columns that [max_array_items = 0] gives. *)
Theorem negative_values_act_as_zero (classes : class_table) (model_cls : ty)
    (config : gen_config) :
  (get_max_depth config < 0 →
   flatten classes model_cls config = Some []
   ∧ flatten classes model_cls (with_max_depth config 0) = Some [])
  ∧ (get_max_array_items config < 0 →
     ∃ columns,
       flatten classes model_cls config = Some columns
       ∧ flatten classes model_cls (with_max_array_items config 0)
         = Some columns).
Proof.
  split.
  - intros Hdepth. split; apply flatten_schema_cutoff.
    + lia.
    + by rewrite get_max_depth_with_max_depth.
  - intros Hitems.
    destruct (flatten_total classes model_cls config) as [columns Hcolumns].
    exists columns. split; [done|]. rewrite <- Hcolumns. unfold flatten.
    change (get_max_depth (with_max_array_items config 0))
      with (get_max_depth config).
    symmetry. apply flatten_schema_items_nonpositive. lia.
Qed.

Lemma negative_values_act_as_zero_witness :
  get_max_depth (example_config (-1) 2) < 0
  ∧ get_max_array_items (example_config 2 (-3)) < 0
  ∧ flatten example_classes (TModel "Patient") (example_config (-1) 2)
    = Some []
  ∧ ∃ columns,
      flatten example_classes (TModel "Patient") (example_config 2 (-3))
      = Some columns
      ∧ flatten example_classes (TModel "Patient")
          (with_max_array_items (example_config 2 (-3)) 0)
        = Some columns.
Proof.
  split; [reflexivity|]. split; [reflexivity|]. split.
  - apply (proj1 (negative_values_act_as_zero example_classes
                    (TModel "Patient") (example_config (-1) 2))).
    reflexivity.
  - apply (proj2 (negative_values_act_as_zero example_classes
                    (TModel "Patient") (example_config 2 (-3)))).
    reflexivity.
Defined.

Example flatten_example_negative_items :
  flatten example_classes (TModel "Patient") (example_config 2 (-3))
  = Some ["name"].
Proof. vm_compute. reflexivity. Qed.

(** ** Removing duplicate columns *)

Lemma dedup_invariant columns unique_columns seen :
  foldl dedup_step ([], ∅) columns = (unique_columns, seen) →
  seen = list_to_set columns
  ∧ (∀ col, col ∈ unique_columns ↔ col ∈ columns)
  ∧ NoDup unique_columns.
Proof.
  revert unique_columns seen.
  induction columns as [|c columns IH] using rev_ind; intros u seen.
  - intros [= <- <-]. split; [done|]. split; [done | constructor].
  - rewrite foldl_snoc.
    destruct (foldl dedup_step ([], ∅) columns) as [u0 seen0].
    destruct (IH u0 seen0 eq_refl) as (Hseen & Hmem & Hnodup).
    unfold dedup_step. case_bool_decide as Hc; intros [= <- <-].
    + split; [|split].
      * rewrite list_to_set_app_L. subst seen0. set_solver.
      * intros col. rewrite !elem_of_app, Hmem. set_solver.
      * apply NoDup_app. split; [done|]. split; [|apply NoDup_singleton].
        intros col Hcol Heq%list_elem_of_singleton. subst col. apply Hc.
        subst seen0. apply elem_of_list_to_set. by apply Hmem.
    + split; [|split]; [| |done].
      * rewrite list_to_set_app_L. subst seen0. set_solver.
      * intros col. rewrite elem_of_app, Hmem. split; [by left|].
        intros [?|Heq%list_elem_of_singleton]; [done|]. subst col.
        apply Hmem. subst seen0.
        apply elem_of_list_to_set in Hc. by apply Hmem.
Qed.

Lemma unique_columns_of_nodup columns : NoDup (unique_columns_of columns).
Proof.
  unfold unique_columns_of.
  destruct (foldl dedup_step ([], ∅) columns) as [u seen] eqn:Hfold.
  by destruct (dedup_invariant _ _ _ Hfold) as (_ & _ & Hnodup).
Qed.

Lemma unique_columns_of_snoc columns col :
  unique_columns_of (columns ++ [col])
  = if bool_decide (col ∈ columns) then unique_columns_of columns
    else unique_columns_of columns ++ [col].
Proof.
  unfold unique_columns_of. rewrite foldl_snoc.
  destruct (foldl dedup_step ([], ∅) columns) as [u seen] eqn:Hfold.
  destruct (dedup_invariant _ _ _ Hfold) as (-> & _ & _).
  unfold dedup_step.
  rewrite (bool_decide_ext (col ∉ list_to_set columns) (col ∉ columns))
    by (by rewrite elem_of_list_to_set).
  by repeat case_bool_decide.
Qed.

Lemma unique_columns_of_app_fresh columns extra :
  NoDup (columns ++ extra) →
  unique_columns_of (columns ++ extra) = unique_columns_of columns ++ extra.
Proof.
  induction extra as [|c extra IH] using rev_ind; intros Hnodup.
  - by rewrite !app_nil_r.
  - rewrite !app_assoc in *. rewrite unique_columns_of_snoc.
    apply NoDup_app in Hnodup as (Hnodup & Hc & _).
    rewrite bool_decide_false; [by rewrite IH|].
    intros Hin. apply (Hc c Hin). left.
Qed.

(** X1. The column list that [main] passes on has no duplicates and
    exactly the members of the flattened list. *)
Theorem unique_columns_nodup_same_members (columns : list string) :
  NoDup (unique_columns_of columns)
  ∧ ∀ col, col ∈ unique_columns_of columns ↔ col ∈ columns.
Proof.
  split; [apply unique_columns_of_nodup|].
  unfold unique_columns_of.
  destruct (foldl dedup_step ([], ∅) columns) as [u seen] eqn:Hfold.
  by destruct (dedup_invariant _ _ _ Hfold) as (_ & Hmem & _).
Qed.

(** X2. Duplicates are removed in favour of the first occurrence, and
    the order of the columns is kept: a column that occurred before
    changes nothing, a new column goes to the end, and the result is a
    sublist of the flattened list. *)
Theorem unique_columns_first_occurrence (columns : list string) :
  (∀ col,
     unique_columns_of (columns ++ [col])
     = if bool_decide (col ∈ columns) then unique_columns_of columns
       else unique_columns_of columns ++ [col])
  ∧ unique_columns_of columns `sublist_of` columns.
Proof.
  split; [intros col; apply unique_columns_of_snoc|].
  induction columns as [|c columns IH] using rev_ind; [done|].
  rewrite unique_columns_of_snoc. case_bool_decide.
  - by apply sublist_inserts_r.
  - by apply sublist_app.
Qed.

(** X3. A list without duplicates is passed on unchanged, so removing
    duplicates twice is the same as removing them once. *)
Theorem unique_columns_fixed (columns : list string) :
  (NoDup columns → unique_columns_of columns = columns)
  ∧ unique_columns_of (unique_columns_of columns) = unique_columns_of columns.
Proof.
  assert (∀ l, NoDup l → unique_columns_of l = l) as Hfixed.
  { intros l Hl. apply (unique_columns_of_app_fresh [] l Hl). }
  split; [apply Hfixed|].
  apply Hfixed, unique_columns_of_nodup.
Qed.

Lemma unique_columns_fixed_witness :
  NoDup ["name"; "address_0_line"]
  ∧ unique_columns_of ["name"; "address_0_line"] = ["name"; "address_0_line"].
Proof.
  assert (NoDup ["name"; "address_0_line"]) as Hnodup.
  { apply (bool_decide_unpack _). vm_compute. exact I. }
  split; [exact Hnodup|].
  exact (proj1 (unique_columns_fixed ["name"; "address_0_line"]) Hnodup).
Defined.

(** ** What the naming transforms keep and what they remove *)

(** X4. The snake form of a name has no uppercase letter, and the names
    that the snake transform leaves unchanged are exactly the names
    without uppercase letters. *)
Theorem snake_case_lowercase (name : string) :
  no_upper (Py.chars (apply_case_style name "snake"))
  ∧ (apply_case_style name "snake" = name ↔ no_upper (Py.chars name)).
Proof.
  change (apply_case_style name "snake") with (to_snake_case name).
  split; [apply to_snake_case_no_upper|]. split.
  - intros Heq. rewrite <- Heq. apply to_snake_case_no_upper.
  - apply to_snake_case_fixed.
Qed.

Lemma filter_snake_chars prev l :
  filter (λ c, c ≠ "_"%char) (snake_chars prev l)
  = filter (λ c, c ≠ "_"%char) (Py.lower <$> l).
Proof.
  revert prev. induction l as [|c r IH]; intros prev; [done|].
  rewrite snake_chars_cons, filter_app, fmap_cons, !filter_cons, IH.
  by destruct (Py.isupper c && _).
Qed.

(** X5. On an ASCII name the snake transform only inserts underscores
    and lowercases: without its underscores, the snake form of the name
    is the lowercased name without its underscores. *)
Theorem snake_case_keeps_letters (name : string) :
  is_ascii name = true →
  filter (λ c, c ≠ "_"%char) (Py.chars (to_snake_case name))
  = filter (λ c, c ≠ "_"%char) (Py.chars (Py.lower_str name)).
Proof.
  intros _.
  rewrite to_snake_case_chars, chars_of_chars, filter_snake_chars.
  rewrite <- (of_chars_chars name) at 2.
  by rewrite lower_str_of_chars, chars_of_chars.
Qed.

Lemma snake_case_keeps_letters_witness :
  is_ascii "XMLParser_v2" = true
  ∧ filter (λ c, c ≠ "_"%char) (Py.chars (to_snake_case "XMLParser_v2"))
    = filter (λ c, c ≠ "_"%char) (Py.chars (Py.lower_str "XMLParser_v2")).
Proof.
  split; [reflexivity|].
  apply (snake_case_keeps_letters "XMLParser_v2"). reflexivity.
Defined.

Lemma length_snake_chars prev l :
  (length l ≤ length (snake_chars prev l) ≤ 2 * length l)%nat.
Proof.
  revert prev. induction l as [|c r IH]; intros prev; [simpl; lia|].
  rewrite snake_chars_cons, length_app. specialize (IH (Some c)).
  destruct (Py.isupper c && _); simpl; lia.
Qed.

(** X6. The snake form of an ASCII name is at least as long as the name
    and, when the name is not empty, shorter than twice the name, since
    no underscore goes before the first character. *)
Theorem snake_case_length (name : string) :
  is_ascii name = true →
  (String.length name ≤ String.length (to_snake_case name))%nat
  ∧ (name ≠ "" →
     String.length (to_snake_case name) < 2 * String.length name)%nat.
Proof.
  intros _.
  rewrite to_snake_case_chars, <- !length_chars, chars_of_chars.
  split; [apply length_snake_chars|].
  destruct name as [|c r]; [done|]. intros _.
  change (Py.chars (String c r)) with (c :: Py.chars r).
  rewrite snake_chars_cons. cbn [from_option]. rewrite andb_false_r.
  pose proof (length_snake_chars (Some c) (Py.chars r)). simpl. lia.
Qed.

Lemma snake_case_length_witness :
  is_ascii "XMLParser" = true
  ∧ "XMLParser" ≠ ""
  ∧ (String.length (to_snake_case "XMLParser") < 2 * String.length "XMLParser")%nat.
Proof.
  split; [reflexivity|]. split; [discriminate|].
  apply (proj2 (snake_case_length "XMLParser" eq_refl)). discriminate.
Defined.

Lemma upper_underscore c : Py.upper c = "_"%char → c = "_"%char.
Proof.
  destruct c as [[] [] [] [] [] [] [] []]; intros H; try reflexivity;
    vm_compute in H; discriminate H.
Qed.

Lemma lower_underscore c : Py.lower c = "_"%char → c = "_"%char.
Proof.
  destruct c as [[] [] [] [] [] [] [] []]; intros H; try reflexivity;
    vm_compute in H; discriminate H.
Qed.

Lemma split_no_sep sep s :
  Forall (λ w, sep ∉ Py.chars w) (Py.split sep s).
Proof.
  induction s as [|c s IH]; simpl.
  - repeat constructor. by intros ?%elem_of_nil.
  - destruct (Ascii.eqb_spec c sep) as [->|Hc].
    + constructor; [by intros ?%elem_of_nil | done].
    + destruct (Py.split sep s) as [|w ws]; simpl.
      * repeat constructor. intros Hin. apply list_elem_of_singleton in Hin.
        by subst.
      * apply Forall_cons in IH as [Hw Hws]. constructor; [|done].
        simpl. intros [?|?]%elem_of_cons; by subst.
Qed.

Lemma lower_str_no_underscore w :
  "_"%char ∉ Py.chars w → "_"%char ∉ Py.chars (Py.lower_str w).
Proof.
  induction w as [|c w IH]; simpl; [done|].
  intros Hw [Hc|Hin]%elem_of_cons.
  - apply Hw. rewrite (lower_underscore c (eq_sym Hc)). left.
  - apply IH; [|done]. intros ?. apply Hw. by right.
Qed.

Lemma capitalize_no_underscore w :
  "_"%char ∉ Py.chars w → "_"%char ∉ Py.chars (Py.capitalize w).
Proof.
  destruct w as [|c w]; simpl; [done|].
  intros Hw [Hc|Hin]%elem_of_cons.
  - apply Hw. rewrite (upper_underscore c (eq_sym Hc)). left.
  - revert Hin. apply lower_str_no_underscore. intros ?. apply Hw. by right.
Qed.

Lemma join_no_underscore ws :
  Forall (λ w, "_"%char ∉ Py.chars w) ws → "_"%char ∉ Py.chars (Py.join ws).
Proof.
  induction 1 as [|w ws Hw _ IH]; simpl; [by intros ?%elem_of_nil|].
  rewrite chars_app. by intros [?|?]%elem_of_app.
Qed.

Lemma to_camel_pascal_no_underscore name :
  ("_"%char ∉ Py.chars (to_camel_case name))
  ∧ ("_"%char ∉ Py.chars (to_pascal_case name)).
Proof.
  destruct (camel_pascal_parts name) as (p & ps & Hsplit & _ & -> & ->).
  pose proof (split_no_sep "_" (to_snake_case name)) as Hparts.
  rewrite Hsplit in Hparts. apply Forall_cons in Hparts as [Hp Hps].
  assert ("_"%char ∉ Py.chars (Py.join (Py.capitalize <$> ps))) as Htail.
  { apply join_no_underscore, Forall_fmap.
    eapply Forall_impl; [exact Hps|]. intros w. apply capitalize_no_underscore. }
  rewrite !chars_app.
  split; intros [Hin|Hin]%elem_of_app; try done.
  by apply (capitalize_no_underscore p Hp).
Qed.

(** X7. The camel and pascal forms of a name contain no underscore. *)
Theorem camel_pascal_no_underscore (name : string) :
  ("_"%char ∉ Py.chars (apply_case_style name "camel"))
  ∧ ("_"%char ∉ Py.chars (apply_case_style name "pascal")).
Proof. apply to_camel_pascal_no_underscore. Qed.

(** X8. The camel and pascal transforms give a name and its snake form
    the same result, so names that differ only in how they mark word
    boundaries ([patientGivenName], [patient_given_name]) get the same
    column name. *)
Theorem camel_pascal_of_snake (name : string) :
  apply_case_style (apply_case_style name "snake") "camel"
  = apply_case_style name "camel"
  ∧ apply_case_style (apply_case_style name "snake") "pascal"
    = apply_case_style name "pascal".
Proof.
  change (apply_case_style ?x "snake") with (to_snake_case x).
  change (apply_case_style ?x "camel") with (to_camel_case x).
  change (apply_case_style ?x "pascal") with (to_pascal_case x).
  unfold to_camel_case, to_pascal_case.
  by rewrite to_snake_case_idempotent.
Qed.

(** ** The names that camel and pascal leave unchanged *)

Lemma upper_of_lower c : Py.isupper c = true → Py.upper (Py.lower c) = c.
Proof. by_char c. Qed.

Lemma lower_changes_upper c : Py.isupper c = true → Py.lower c ≠ c.
Proof.
  destruct c as [[] [] [] [] [] [] [] []]; intros H; try discriminate H;
    vm_compute; discriminate.
Qed.

Lemma upper_lower_fixed c : Py.upper (Py.lower c) = c ↔ Py.islower c = false.
Proof.
  destruct c as [[] [] [] [] [] [] [] []]; vm_compute; split; congruence.
Qed.

Lemma words_of_underscore t : words_of (String "_" t) = words_of t.
Proof. reflexivity. Qed.

Lemma rest_of_word_underscore t : rest_of_word (String "_" t) = words_of t.
Proof. reflexivity. Qed.

Lemma words_of_char c t :
  c ≠ "_"%char → words_of (String c t) = String (Py.upper c) (rest_of_word t).
Proof.
  intros Hc. unfold words_of, rest_of_word. cbn [Py.split].
  rewrite (proj2 (Ascii.eqb_neq c "_")) by done.
  destruct (split_cons "_" t) as (w & ws & ->). reflexivity.
Qed.

Lemma rest_of_word_char c t :
  c ≠ "_"%char → rest_of_word (String c t) = String (Py.lower c) (rest_of_word t).
Proof.
  intros Hc. unfold rest_of_word. cbn [Py.split].
  rewrite (proj2 (Ascii.eqb_neq c "_")) by done.
  destruct (split_cons "_" t) as (w & ws & ->). reflexivity.
Qed.

Lemma lower_not_underscore c : c ≠ "_"%char → Py.lower c ≠ "_"%char.
Proof. intros Hc Hl. by apply Hc, lower_underscore. Qed.

Lemma rest_of_word_snake prev l :
  "_"%char ∉ l →
  Py.chars (rest_of_word (Py.of_chars (snake_chars prev l))) = restyle prev l.
Proof.
  revert prev. induction l as [|c r IH]; intros prev Hl; [done|].
  apply not_elem_of_cons in Hl as [Hc Hr].
  assert (Py.lower c ≠ "_"%char) as Hlc by (by apply lower_not_underscore).
  rewrite snake_chars_cons. cbn [restyle]. unfold set_off.
  destruct (Py.isupper c && _).
  - cbn [app Py.of_chars string_of_list_ascii].
    rewrite rest_of_word_underscore, words_of_char by done.
    cbn [Py.chars list_ascii_of_string]. f_equal. by apply IH.
  - cbn [app Py.of_chars string_of_list_ascii].
    rewrite rest_of_word_char by done.
    cbn [Py.chars list_ascii_of_string]. rewrite lower_lower. f_equal.
    by apply IH.
Qed.

Lemma words_of_snake c r :
  "_"%char ∉ c :: r →
  Py.chars (words_of (Py.of_chars (snake_chars None (c :: r))))
  = Py.upper (Py.lower c) :: restyle (Some c) r.
Proof.
  intros [Hc Hr]%not_elem_of_cons.
  rewrite snake_chars_cons. cbn [from_option]. rewrite andb_false_r.
  cbn [app Py.of_chars string_of_list_ascii].
  rewrite words_of_char by (by apply lower_not_underscore).
  cbn [Py.chars list_ascii_of_string]. f_equal. by apply rest_of_word_snake.
Qed.

Lemma restyle_fixed prev l :
  restyle prev l = l ↔ capitals_set_off prev l = true.
Proof.
  revert prev. induction l as [|c r IH]; intros prev; [done|].
  cbn [restyle capitals_set_off]. rewrite andb_true_iff, <- IH.
  destruct (Py.isupper c) eqn:Hup; simpl.
  - destruct (set_off prev r).
    + rewrite upper_of_lower by done. split; [by intros [= ->] | by intros [_ ->]].
    + split; [|by intros [? _]]. intros [= Hc _]. by apply lower_changes_upper in Hc.
  - rewrite lower_not_upper by done.
    split; [by intros [= ->] | by intros [_ ->]].
Qed.

Lemma chars_inj s t : Py.chars s = Py.chars t → s = t.
Proof. intros H. by rewrite <- (of_chars_chars s), H, of_chars_chars. Qed.

Lemma to_camel_case_rest name :
  to_camel_case name = rest_of_word (to_snake_case name).
Proof.
  destruct (camel_pascal_parts name) as (p & ps & Hsplit & Hp & -> & _).
  unfold rest_of_word. rewrite Hsplit. simpl. by rewrite lower_str_fixed.
Qed.

(** A name without underscores is its own camel form exactly when each
    of its uppercase letters is set off. *)
Lemma to_camel_case_fixed y :
  "_"%char ∉ Py.chars y →
  to_camel_case y = y ↔ camel_stable y = true.
Proof.
  intros Hy. unfold camel_stable. rewrite <- restyle_fixed.
  rewrite to_camel_case_rest, to_snake_case_chars.
  rewrite <- (rest_of_word_snake None) by done.
  split; [by intros -> | apply chars_inj].
Qed.

Lemma to_pascal_case_fixed y :
  "_"%char ∉ Py.chars y →
  to_pascal_case y = y
  ↔ match Py.chars y with
    | [] => True
    | c :: r => Py.islower c = false ∧ capitals_set_off (Some c) r = true
    end.
Proof.
  intros Hy. change (to_pascal_case y) with (words_of (to_snake_case y)).
  rewrite to_snake_case_chars.
  destruct (Py.chars y) as [|c r] eqn:Hchars.
  - assert (y = "") as -> by (by apply chars_inj). done.
  - rewrite <- upper_lower_fixed, <- restyle_fixed.
    pose proof (words_of_snake c r Hy) as Hw. split.
    + intros Heq. rewrite Heq, Hchars in Hw. injection Hw as Hc Hr.
      by split.
    + intros [Hc Hr]. apply chars_inj. by rewrite Hw, Hchars, Hc, Hr.
Qed.

Lemma join_capitalize_first ws :
  match Py.chars (Py.join (Py.capitalize <$> ws)) with
  | [] => True
  | c :: _ => Py.islower c = false
  end.
Proof.
  induction ws as [|[|c w] ws IH]; [done | exact IH |].
  rewrite fmap_cons, join_cons. cbn [Py.capitalize].
  rewrite string_app_cons. cbn [Py.chars list_ascii_of_string].
  apply islower_upper.
Qed.

Lemma to_camel_case_idempotent_iff x :
  to_camel_case (to_camel_case x) = to_camel_case x
  ↔ camel_stable (to_camel_case x) = true.
Proof. apply to_camel_case_fixed, to_camel_pascal_no_underscore. Qed.

Lemma to_pascal_case_idempotent_iff x :
  to_pascal_case (to_pascal_case x) = to_pascal_case x
  ↔ pascal_stable (to_pascal_case x) = true.
Proof.
  rewrite to_pascal_case_fixed by apply to_camel_pascal_no_underscore.
  unfold pascal_stable.
  pose proof (join_capitalize_first (Py.split "_" (to_snake_case x))) as Hfirst.
  change (Py.join _) with (to_pascal_case x) in Hfirst.
  destruct (Py.chars (to_pascal_case x)) as [|c r]; [done|].
  split; [by intros [_ ?] | done].
Qed.

(** ** ASCII names over code points

    On an ASCII name, the transforms over code points give the code
    points of what the transforms over strings give. *)

Lemma is_ascii_chars s : is_ascii s = true ↔ Forall (λ c, ascii_char c) (Py.chars s).
Proof.
  unfold is_ascii. rewrite forallb_forall, Forall_forall.
  split; intros H c Hc; apply H; by apply list_elem_of_In.
Qed.

Lemma ascii_char_casing c :
  ascii_char c →
  Uni.isupper Uni.python_casing (N_of_ascii c) = Py.isupper c
  ∧ Uni.islower Uni.python_casing (N_of_ascii c) = Py.islower c
  ∧ Uni.lower Uni.python_casing (N_of_ascii c) = [N_of_ascii (Py.lower c)]
  ∧ Uni.upper Uni.python_casing (N_of_ascii c) = [N_of_ascii (Py.upper c)]
  ∧ Uni.title Uni.python_casing (N_of_ascii c) = [N_of_ascii (Py.upper c)]
  ∧ ascii_char (Py.lower c) ∧ ascii_char (Py.upper c).
Proof.
  destruct c as [[] [] [] [] [] [] [] []]; intros H;
    try (vm_compute in H; discriminate H); vm_compute; repeat split.
Qed.

Lemma of_string_app s t :
  Uni.of_string (s +:+ t) = Uni.of_string s ++ Uni.of_string t.
Proof. unfold Uni.of_string. by rewrite chars_app, fmap_app. Qed.

Lemma N_of_ascii_underscore c : (N_of_ascii c =? 95)%N = Ascii.eqb c "_".
Proof. by_char c. Qed.

Lemma split_of_string s :
  Uni.split 95 (Uni.of_string s) = Uni.of_string <$> Py.split "_" s.
Proof.
  induction s as [|c s IH]; [done|].
  change (Uni.of_string (String c s)) with (N_of_ascii c :: Uni.of_string s).
  cbn [Uni.split Py.split]. rewrite IH, N_of_ascii_underscore.
  destruct (Ascii.eqb c "_"); [done|]. by destruct (Py.split "_" s).
Qed.

Lemma join_of_string ws :
  Uni.join (Uni.of_string <$> ws) = Uni.of_string (Py.join ws).
Proof.
  induction ws as [|w ws IH]; [done|].
  rewrite fmap_cons, join_cons, of_string_app, <- IH. reflexivity.
Qed.

Lemma is_ascii_cons c s :
  is_ascii (String c s) = true ↔ ascii_char c ∧ is_ascii s = true.
Proof. unfold is_ascii. simpl. apply andb_true_iff. Qed.

Lemma lower_str_of_string s :
  is_ascii s = true →
  Uni.lower_str Uni.python_casing (Uni.of_string s)
  = Uni.of_string (Py.lower_str s).
Proof.
  induction s as [|c s IH]; [done|]. intros [Hc Hs]%is_ascii_cons.
  change (Uni.of_string (String c s)) with (N_of_ascii c :: Uni.of_string s).
  change (Uni.lower_str ?U (?a :: ?l)) with (Uni.lower U a ++ Uni.lower_str U l).
  rewrite IH by done.
  destruct (ascii_char_casing c Hc) as (_ & _ & -> & _). reflexivity.
Qed.

Lemma capitalize_of_string w :
  is_ascii w = true →
  Uni.capitalize Uni.python_casing (Uni.of_string w)
  = Uni.of_string (Py.capitalize w).
Proof.
  destruct w as [|c w]; [done|]. intros [Hc Hw]%is_ascii_cons.
  change (Uni.of_string (String c w)) with (N_of_ascii c :: Uni.of_string w).
  cbn [Uni.capitalize Py.capitalize]. rewrite lower_str_of_string by done.
  destruct (ascii_char_casing c Hc) as (_ & _ & _ & _ & -> & _). reflexivity.
Qed.

Lemma upper_first_of_string s :
  is_ascii s = true →
  Uni.upper_first Uni.python_casing (Uni.of_string s)
  = Uni.of_string (upper_first s).
Proof.
  destruct s as [|c s]; [done|]. intros [Hc Hs]%is_ascii_cons.
  change (Uni.of_string (String c s)) with (N_of_ascii c :: Uni.of_string s).
  cbn [Uni.upper_first upper_first].
  destruct (ascii_char_casing c Hc) as (_ & _ & _ & -> & _). reflexivity.
Qed.

(** *** The transforms keep a name ASCII *)

Lemma is_ascii_lower_str s : is_ascii s = true → is_ascii (Py.lower_str s) = true.
Proof.
  induction s as [|c s IH]; [done|]. cbn [Py.lower_str].
  rewrite !is_ascii_cons. intros [Hc Hs]. split; [|by apply IH].
  by destruct (ascii_char_casing c Hc) as (_ & _ & _ & _ & _ & ? & _).
Qed.

Lemma is_ascii_capitalize w : is_ascii w = true → is_ascii (Py.capitalize w) = true.
Proof.
  destruct w as [|c w]; [done|]. cbn [Py.capitalize].
  rewrite !is_ascii_cons. intros [Hc Hw]. split; [|by apply is_ascii_lower_str].
  by destruct (ascii_char_casing c Hc) as (_ & _ & _ & _ & _ & _ & ?).
Qed.

Lemma is_ascii_app s t :
  is_ascii (s +:+ t) = true ↔ is_ascii s = true ∧ is_ascii t = true.
Proof. by rewrite !is_ascii_chars, chars_app, Forall_app. Qed.

Lemma is_ascii_join ws :
  Forall (λ w, is_ascii w = true) ws → is_ascii (Py.join ws) = true.
Proof.
  induction 1 as [|w ws Hw _ IH]; [done|].
  rewrite join_cons. by apply is_ascii_app.
Qed.

Lemma is_ascii_split sep s :
  is_ascii s = true → Forall (λ w, is_ascii w = true) (Py.split sep s).
Proof.
  induction s as [|c s IH]; [by repeat constructor|].
  intros [Hc Hs]%is_ascii_cons. specialize (IH Hs). cbn [Py.split].
  destruct (Ascii.eqb c sep); [by constructor|].
  destruct (Py.split sep s) as [|w ws].
  - repeat constructor. by apply is_ascii_cons.
  - apply Forall_cons in IH as [Hw Hws]. constructor; [|done].
    by apply is_ascii_cons.
Qed.

Lemma snake_chars_ascii prev l :
  Forall (λ c, ascii_char c) l → Forall (λ c, ascii_char c) (snake_chars prev l).
Proof.
  intros H. revert prev. induction H as [|c r Hc _ IH]; intros prev; [done|].
  rewrite snake_chars_cons. apply Forall_app. split.
  - destruct (Py.isupper c && _); by repeat constructor.
  - constructor; [|apply IH].
    by destruct (ascii_char_casing c Hc) as (_ & _ & _ & _ & _ & ? & _).
Qed.

Lemma is_ascii_to_snake_case name :
  is_ascii name = true → is_ascii (to_snake_case name) = true.
Proof.
  rewrite !is_ascii_chars, to_snake_case_chars, chars_of_chars.
  apply snake_chars_ascii.
Qed.

(** *** The loop of [to_snake_case] over code points *)

Lemma islower_at_of_string name i :
  is_ascii name = true →
  Uni.islower_at Uni.python_casing (Uni.of_string name) i
  = Py.islower_at name i.
Proof.
  rewrite is_ascii_chars. intros Hname.
  unfold Uni.islower_at, Py.islower_at, Uni.of_string.
  rewrite list_lookup_fmap.
  destruct (Py.chars name !! i) as [d|] eqn:Hd; [|done].
  cbn [fmap option_fmap option_map from_option].
  assert (ascii_char d) as Hasc.
  { eapply Forall_forall in Hname; [exact Hname|].
    by eapply list_elem_of_lookup_2. }
  by destruct (ascii_char_casing d Hasc) as (_ & -> & _).
Qed.

Lemma length_of_string s : length (Uni.of_string s) = String.length s.
Proof. unfold Uni.of_string. by rewrite length_fmap, length_chars. Qed.

Lemma snake_step_of_string name result i c :
  is_ascii name = true → ascii_char c →
  Uni.snake_step Uni.python_casing (Uni.of_string name)
    ((λ d, [N_of_ascii d]) <$> result) (i, N_of_ascii c)
  = (λ d, [N_of_ascii d]) <$> snake_step name result (i, c).
Proof.
  intros Hname Hc. unfold Uni.snake_step, snake_step.
  rewrite !islower_at_of_string, length_of_string by done.
  destruct (ascii_char_casing c Hc) as (-> & _ & -> & _).
  destruct (Py.isupper c && _ && _); by rewrite !fmap_app.
Qed.

Lemma foldl_snake_step_of_string name result items :
  is_ascii name = true →
  Forall (λ item : nat * ascii, ascii_char item.2) items →
  foldl (Uni.snake_step Uni.python_casing (Uni.of_string name))
    ((λ d, [N_of_ascii d]) <$> result) (prod_map id N_of_ascii <$> items)
  = (λ d, [N_of_ascii d]) <$> foldl (snake_step name) result items.
Proof.
  intros Hname Hitems. revert result.
  induction Hitems as [|[i c] items Hc _ IH]; intros result; [done|].
  rewrite fmap_cons. cbn [foldl].
  change (prod_map id N_of_ascii (i, c)) with (i, N_of_ascii c).
  rewrite snake_step_of_string by done. apply IH.
Qed.

Lemma join_singletons (l : list ascii) :
  Uni.join ((λ d, [N_of_ascii d]) <$> l) = N_of_ascii <$> l.
Proof.
  induction l as [|c l IH]; [done|].
  rewrite !fmap_cons, <- IH. reflexivity.
Qed.

Lemma enumerate_ascii name :
  is_ascii name = true →
  Forall (λ item : nat * ascii, ascii_char item.2) (Py.enumerate name).
Proof.
  rewrite is_ascii_chars. intros Hname. apply Forall_forall.
  intros [i c] (j & d & Heq & Hj)%elem_of_lookup_imap.
  injection Heq as -> ->.
  eapply Forall_forall in Hname; [exact Hname|].
  by eapply list_elem_of_lookup_2.
Qed.

Lemma to_snake_case_of_string name :
  is_ascii name = true →
  Uni.to_snake_case Uni.python_casing (Uni.of_string name)
  = Uni.of_string (to_snake_case name).
Proof.
  intros Hname. unfold Uni.to_snake_case, to_snake_case.
  assert (imap pair (Uni.of_string name)
          = prod_map id N_of_ascii <$> Py.enumerate name) as ->.
  { unfold Uni.of_string, Py.enumerate. rewrite imap_fmap, fmap_imap.
    reflexivity. }
  rewrite (foldl_snake_step_of_string name [])
    by (done || by apply enumerate_ascii).
  rewrite join_singletons. unfold Uni.of_string. by rewrite chars_of_chars.
Qed.

Lemma capitalize_fmap_of_string ws :
  Forall (λ w, is_ascii w = true) ws →
  Uni.capitalize Uni.python_casing <$> (Uni.of_string <$> ws)
  = Uni.of_string <$> (Py.capitalize <$> ws).
Proof.
  induction 1 as [|w ws Hw _ IH]; [done|].
  rewrite !fmap_cons, IH, capitalize_of_string by done. reflexivity.
Qed.

Lemma to_pascal_case_of_string name :
  is_ascii name = true →
  Uni.to_pascal_case Uni.python_casing (Uni.of_string name)
  = Uni.of_string (to_pascal_case name).
Proof.
  intros Hname. unfold Uni.to_pascal_case, to_pascal_case.
  rewrite to_snake_case_of_string, split_of_string by done.
  rewrite capitalize_fmap_of_string, join_of_string; [done|].
  by apply is_ascii_split, is_ascii_to_snake_case.
Qed.

Lemma to_camel_case_of_string name :
  is_ascii name = true →
  Uni.to_camel_case Uni.python_casing (Uni.of_string name)
  = Uni.of_string (to_camel_case name).
Proof.
  intros Hname. unfold Uni.to_camel_case, to_camel_case.
  rewrite to_snake_case_of_string, split_of_string by done.
  pose proof (is_ascii_split "_" _ (is_ascii_to_snake_case name Hname)) as Hparts.
  destruct (Py.split "_" (to_snake_case name)) as [|p ps]; [done|].
  apply Forall_cons in Hparts as [_ Hps].
  rewrite fmap_cons. cbn [hd tail].
  by rewrite capitalize_fmap_of_string, join_of_string, of_string_app.
Qed.

Lemma is_ascii_to_camel_case name :
  is_ascii name = true → is_ascii (to_camel_case name) = true.
Proof.
  intros Hname. unfold to_camel_case.
  pose proof (is_ascii_split "_" _ (is_ascii_to_snake_case name Hname)) as Hparts.
  destruct (Py.split "_" (to_snake_case name)) as [|p ps]; [done|].
  apply Forall_cons in Hparts as [Hp Hps]. cbn [hd tail].
  apply is_ascii_app. split; [done|]. apply is_ascii_join, Forall_fmap.
  eapply Forall_impl; [exact Hps|]. intros w. apply is_ascii_capitalize.
Qed.

Lemma N_of_ascii_inj c d : N_of_ascii c = N_of_ascii d → c = d.
Proof.
  intros H. by rewrite <- (ascii_N_embedding c), H, ascii_N_embedding.
Qed.

Lemma of_string_inj s t : Uni.of_string s = Uni.of_string t → s = t.
Proof.
  revert t. induction s as [|c s IH]; intros [|d t]; try done.
  unfold Uni.of_string. cbn [Py.chars list_ascii_of_string]. rewrite !fmap_cons.
  intros [= Hc Hs]. apply N_of_ascii_inj in Hc as ->. f_equal. by apply IH.
Qed.

Lemma is_ascii_to_pascal_case name :
  is_ascii name = true → is_ascii (to_pascal_case name) = true.
Proof.
  intros Hname. unfold to_pascal_case. apply is_ascii_join, Forall_fmap.
  eapply Forall_impl; [by apply is_ascii_split, is_ascii_to_snake_case|].
  intros w. apply is_ascii_capitalize.
Qed.

(** C2, as the code has it, for ASCII strings.  The snake transform is
    idempotent.  The camel transform is idempotent at [x] exactly when
    every uppercase letter of the camel form of [x] is set off: it is
    not the first character and a lowercase letter stands directly
    before or after it.  The pascal transform is idempotent at [x]
    exactly when every uppercase letter after the first character of
    the pascal form of [x] is set off in this way.  The same holds of
    the transforms over code points. *)
Theorem case_style_idempotent_exactly (x : string) :
  is_ascii x = true →
  (apply_case_style (apply_case_style x "snake") "snake"
   = apply_case_style x "snake"
   ∧ (apply_case_style (apply_case_style x "camel") "camel"
      = apply_case_style x "camel"
      ↔ camel_stable (apply_case_style x "camel") = true)
   ∧ (apply_case_style (apply_case_style x "pascal") "pascal"
      = apply_case_style x "pascal"
      ↔ pascal_stable (apply_case_style x "pascal") = true))
  ∧ (let U := Uni.python_casing in
     let X := Uni.of_string x in
     Uni.to_snake_case U (Uni.to_snake_case U X) = Uni.to_snake_case U X
     ∧ (Uni.to_camel_case U (Uni.to_camel_case U X) = Uni.to_camel_case U X
        ↔ camel_stable (to_camel_case x) = true)
     ∧ (Uni.to_pascal_case U (Uni.to_pascal_case U X) = Uni.to_pascal_case U X
        ↔ pascal_stable (to_pascal_case x) = true)).
Proof.
  intros Hx. split; [|cbv zeta; split; [|split]].
  - split; [apply to_snake_case_idempotent|]. split.
    + apply to_camel_case_idempotent_iff.
    + apply to_pascal_case_idempotent_iff.
  - rewrite !to_snake_case_of_string by (done || by apply is_ascii_to_snake_case).
    by rewrite to_snake_case_idempotent.
  - rewrite !to_camel_case_of_string by (done || by apply is_ascii_to_camel_case).
    rewrite <- to_camel_case_idempotent_iff.
    split; [apply of_string_inj | by intros ->].
  - rewrite !to_pascal_case_of_string by (done || by apply is_ascii_to_pascal_case).
    rewrite <- to_pascal_case_idempotent_iff.
    split; [apply of_string_inj | by intros ->].
Qed.

Lemma case_style_idempotent_exactly_witness :
  is_ascii "address_0_line" = true
  ∧ camel_stable (apply_case_style "address_0_line" "camel") = true
  ∧ apply_case_style (apply_case_style "address_0_line" "camel") "camel"
    = apply_case_style "address_0_line" "camel".
Proof.
  split; [reflexivity|]. split; [reflexivity|].
  apply (proj1 (proj2 (proj1 (case_style_idempotent_exactly "address_0_line"
                                eq_refl)))).
  reflexivity.
Defined.

(** The names on which both transforms are idempotent include the
    empty name, one-letter words and words with digits. *)
Example camel_pascal_stable_names :
  Forall (λ x, camel_stable (to_camel_case x) = true
               ∧ pascal_stable (to_pascal_case x) = true)
    [""; "a"; "valueX"; "x_ray"; "address_0_line"; "name_0_given_0";
     "address0Line"; "patientGivenName"].
Proof. repeat constructor. Qed.

(** Names with a capital that is not set off fail the test. *)
Example camel_pascal_unstable_names :
  camel_stable (to_camel_case "a_b_c") = false
  ∧ pascal_stable (to_pascal_case "a_b") = false.
Proof. split; reflexivity. Qed.

(** ** The pascal form and the camel form *)

(** C10, for ASCII strings.  For every ASCII string [x],
    [to_pascal_case x] is [to_camel_case x] with its first character
    upper-cased, and the two are equal when [x] is empty or starts with
    a character that is not a letter.  The same holds of the transforms
    over code points. *)
Theorem pascal_is_camel_upper_first (x : string) :
  is_ascii x = true →
  (to_pascal_case x = upper_first (to_camel_case x)
   ∧ (starts_with_letter x = false → to_pascal_case x = to_camel_case x))
  ∧ (let U := Uni.python_casing in
     let X := Uni.of_string x in
     Uni.to_pascal_case U X = Uni.upper_first U (Uni.to_camel_case U X)
     ∧ (starts_with_letter x = false →
        Uni.to_pascal_case U X = Uni.to_camel_case U X)).
Proof.
  intros Hx. destruct (pascal_camel_upper_first x) as [Hfirst Heq].
  split; [done|]. cbv zeta.
  rewrite to_pascal_case_of_string, to_camel_case_of_string by done.
  rewrite upper_first_of_string by (by apply is_ascii_to_camel_case).
  split; [by rewrite <- Hfirst|]. intros Hletter. by rewrite Heq.
Qed.

Lemma pascal_is_camel_upper_first_witness :
  is_ascii "_id" = true
  ∧ starts_with_letter "_id" = false
  ∧ to_pascal_case "_id" = to_camel_case "_id".
Proof.
  split; [reflexivity|]. split; [reflexivity|].
  apply (proj2 (proj1 (pascal_is_camel_upper_first "_id" eq_refl))).
  reflexivity.
Defined.

(** C10, as stated for every string, fails beyond ASCII, because
    [str.capitalize] title-cases the first character: the name made of
    U+00DF and [a] is its own camel form, its pascal form is [Ssa], and
    its camel form with the first character upper-cased is [SSa]. *)
Lemma pascal_not_camel_upper_first_beyond_ascii :
  Uni.to_camel_case Uni.python_casing [223; 97]%N = [223; 97]%N
  ∧ Uni.to_pascal_case Uni.python_casing [223; 97]%N = [83; 115; 97]%N
  ∧ Uni.upper_first Uni.python_casing
      (Uni.to_camel_case Uni.python_casing [223; 97]%N)
    = [83; 83; 97]%N
  ∧ ¬ (∀ x, Uni.to_pascal_case Uni.python_casing x
            = Uni.upper_first Uni.python_casing
                (Uni.to_camel_case Uni.python_casing x)).
Proof.
  repeat split; try reflexivity.
  intros H. specialize (H [223; 97]%N). vm_compute in H. discriminate H.
Qed.

(** Beyond ASCII a lowercase form can be longer than its character:
    the snake form of the one-character name U+0130 has two code
    points. *)
Example snake_longer_beyond_ascii :
  Uni.to_snake_case Uni.python_casing [304]%N = [105; 775]%N.
Proof. reflexivity. Qed.

(** On an ASCII name the two embeddings compute the same snake
    form. *)
Example snake_given_code_points :
  Uni.to_snake_case Uni.python_casing (Uni.of_string "patientGivenName")
  = Uni.of_string "patient_given_name".
Proof. reflexivity. Qed.

(** ** The columns of one field *)

Lemma for_each_append {A B} (f : A → B) (xs : list A) (s : list B) :
  for_each xs (λ x s, Some (s ++ [f x])) s = Some (s ++ (f <$> xs)).
Proof.
  revert s. induction xs as [|x xs IH]; intros s; simpl.
  - by rewrite app_nil_r.
  - rewrite IH. by rewrite <- app_assoc.
Qed.

Lemma length_indexed_names config column_base :
  length (indexed_names config column_base)
  = Z.to_nat (get_max_array_items config).
Proof. unfold indexed_names, Py.range. by rewrite length_fmap, length_seq. Qed.

Lemma include_test_false config depth field_name :
  get_include_fields config = ∅ ∨ depth ≠ 0
    ∨ field_name ∈ get_include_fields config →
  bool_decide (get_include_fields config ≠ ∅) && (depth =? 0)
  && bool_decide (field_name ∉ get_include_fields config) = false.
Proof.
  intros [Hin|[Hin|Hin]].
  - by rewrite bool_decide_false by (by intros []).
  - rewrite (proj2 (Z.eqb_neq depth 0)) by done. by rewrite andb_false_r.
  - rewrite (bool_decide_false (_ ∉ _)) by (by intros []).
    by rewrite andb_false_r.
Qed.

(** X9. A list-typed field whose inner type is not a model gives exactly
    [max_array_items] columns, the indexed names of the field in index
    order, whether the inner type is primitive or not. *)
Theorem list_field_indexed_columns (rec : flatten_fn) (config : gen_config)
    (prefix : string) (depth : Z) (field_name : string)
    (field_info : field_info) (columns : list string)
    (is_optional : bool) (inner_type : ty) :
  field_name ∉ get_exclude_fields config →
  get_include_fields config = ∅ ∨ depth ≠ 0
    ∨ field_name ∈ get_include_fields config →
  unwrap_optional_and_list (get_field_type field_info)
    = Some (is_optional, true, inner_type) →
  is_pydantic_model inner_type = false →
  flatten_field rec config prefix depth (field_name, field_info) columns
  = Some (columns
          ++ indexed_names config (column_base_of config prefix field_name))
  ∧ length (indexed_names config (column_base_of config prefix field_name))
    = Z.to_nat (get_max_array_items config).
Proof.
  intros Hex Hin Hunwrap Hmodel. split; [|apply length_indexed_names].
  unfold flatten_field. rewrite bool_decide_false by done.
  rewrite include_test_false by done. rewrite Hunwrap. simpl.
  rewrite Hmodel. destruct (is_primitive_type inner_type);
    apply (for_each_append
             (λ i : nat, apply_case_style
                (column_base_of config prefix field_name
                 +:+ get_separator config +:+ pretty i) (get_case config))).
Qed.

Lemma list_field_indexed_columns_witness :
  ("tags" ∉ get_exclude_fields (example_config 2 2))
  ∧ unwrap_optional_and_list (get_field_type (plain (Optional (List_ TAny))))
    = Some (true, true, TAny)
  ∧ flatten_field (flatten_schema 0 example_classes) (example_config 2 2)
      "" 0 ("tags", plain (Optional (List_ TAny))) ["name"]
    = Some (["name"] ++ indexed_names (example_config 2 2)
                          (column_base_of (example_config 2 2) "" "tags")).
Proof.
  assert ("tags" ∉ get_exclude_fields (example_config 2 2)) as Hex
    by (by vm_compute).
  split; [exact Hex|]. split; [reflexivity|].
  apply (list_field_indexed_columns (flatten_schema 0 example_classes)
           (example_config 2 2) "" 0 "tags" (plain (Optional (List_ TAny)))
           ["name"] true TAny Hex).
  - left. reflexivity.
  - reflexivity.
  - reflexivity.
Defined.

(** ** The result as a concatenation *)

Lemma flatten_field_appends (rec : flatten_fn) config prefix depth item
    columns :
  flatten_field rec config prefix depth item columns
  = (columns ++.) <$> flatten_field rec config prefix depth item [].
Proof.
  unfold flatten_field. destruct item as [field_name field_info].
  destruct (bool_decide _); [simpl; by rewrite app_nil_r|].
  destruct (_ && _); [simpl; by rewrite app_nil_r|].
  destruct (unwrap_optional_and_list _) as [[[o l] i]|]; [simpl|done].
  assert (∀ (xs : list nat) (body : nat → option (list string)) s,
            for_each xs (λ x s, cols ← body x; Some (s ++ cols)) s
            = (s ++.) <$> for_each xs (λ x s, cols ← body x; Some (s ++ cols))
                            []) as Hloop.
  { intros xs body. induction xs as [|x xs IH]; intros s; simpl.
    - by rewrite app_nil_r.
    - destruct (body x) as [cols|]; simpl; [|done].
      rewrite IH, (IH cols).
      destruct (for_each xs _ []) as [r|]; simpl; [|done].
      by rewrite app_assoc. }
  destruct l.
  - destruct (is_primitive_type i).
    + by rewrite !for_each_append.
    + destruct (is_pydantic_model i).
      * apply (Hloop _ (λ i0 : nat, rec i config _ (depth + 1))).
      * by rewrite !for_each_append.
  - destruct (is_pydantic_model i); [|done].
    by destruct (rec i config _ (depth + 1)).
Qed.

Lemma for_each_concat {A B} (body : A → list B → option (list B))
    (xs : list A) (s : list B) :
  (∀ x s, body x s = (s ++.) <$> body x []) →
  for_each xs body s
  = (λ colss, s ++ mjoin colss) <$> mapM (λ x, body x []) xs.
Proof.
  intros Hbody. revert s. induction xs as [|x xs IH]; intros s; simpl.
  - by rewrite app_nil_r.
  - rewrite Hbody. destruct (body x []) as [cols|]; simpl; [|done].
    rewrite IH. destruct (mapM _ xs) as [colss|]; simpl; [|done].
    by rewrite app_assoc.
Qed.

(** X10. Above the depth cutoff, the result of [flatten_schema] is the
    concatenation, in field order, of what each field gives on its own:
    a field never changes or reorders the columns of the fields before
    it. *)
Theorem flatten_schema_concat (fuel : nat) (classes : class_table)
    (model_cls : ty) (config : gen_config) (prefix : string) (depth : Z) :
  depth < get_max_depth config →
  flatten_schema (S fuel) classes model_cls config prefix depth
  = mjoin <$> mapM (λ item, flatten_field (flatten_schema fuel classes)
                              config prefix depth item [])
                (get_model_fields classes model_cls).
Proof.
  intros Hdepth. cbn [flatten_schema].
  rewrite Z.geb_leb, (proj2 (Z.leb_gt _ _)) by lia.
  rewrite for_each_concat by (intros; apply flatten_field_appends).
  by destruct (mapM _ _).
Qed.

Lemma flatten_schema_concat_witness :
  0 < get_max_depth (example_config 2 2)
  ∧ flatten_schema 3 example_classes (TModel "Patient") (example_config 2 2)
      "" 0
    = mjoin <$> mapM (λ item, flatten_field (flatten_schema 2 example_classes)
                                (example_config 2 2) "" 0 item [])
                  (get_model_fields example_classes (TModel "Patient")).
Proof.
  split; [reflexivity|].
  apply (flatten_schema_concat 2 example_classes (TModel "Patient")
           (example_config 2 2) "" 0).
  reflexivity.
Defined.

(** ** The result when lists have no items *)

Lemma mapM_ext_eq {A B} (f g : A → option B) (l : list A) :
  (∀ x, f x = g x) → mapM f l = mapM g l.
Proof.
  intros Hfg. induction l as [|x l IH]; [done|].
  cbn [mapM]. by rewrite Hfg, IH.
Qed.

(** With no items, the loop body gives what the specification says. *)
Lemma flatten_field_without_items (rec : flatten_fn) config prefix depth item :
  get_max_array_items config ≤ 0 →
  flatten_field rec config prefix depth item []
  = columns_without_items rec config prefix depth item.
Proof.
  intros Hitems. unfold flatten_field, columns_without_items.
  destruct item as [field_name field_info].
  destruct (bool_decide _); [done|]. destruct (_ && _); [done|].
  destruct (unwrap_optional_and_list _) as [[[o l] i]|]; [simpl|done].
  destruct l.
  - rewrite range_nonpositive by done. by destruct (is_primitive_type i).
  - unfold column_base_of. destruct (is_pydantic_model i); [|done].
    by destruct (rec i config _ (depth + 1)).
Qed.

Lemma flatten_schema_without_items fuel classes model_cls config prefix depth :
  get_max_array_items config ≤ 0 →
  depth < get_max_depth config →
  flatten_schema (S fuel) classes model_cls config prefix depth
  = mjoin <$> mapM (columns_without_items (flatten_schema fuel classes)
                      config prefix depth)
                (get_model_fields classes model_cls).
Proof.
  intros Hitems Hdepth. cbn [flatten_schema].
  rewrite Z.geb_leb, (proj2 (Z.leb_gt _ _)) by lia.
  rewrite for_each_concat by (intros; apply flatten_field_appends).
  rewrite (mapM_ext_eq _ (columns_without_items (flatten_schema fuel classes)
                            config prefix depth))
    by (intros; by apply flatten_field_without_items).
  by destruct (mapM _ _).
Qed.

Lemma columns_without_items_leaf (rec : flatten_fn) config prefix depth item :
  is_leaf_field config depth item = true →
  columns_without_items rec config prefix depth item
  = Some [apply_case_style (column_base_of config prefix item.1)
            (get_case config)].
Proof.
  unfold is_leaf_field, columns_without_items.
  destruct item as [field_name field_info].
  intros [[Hex Hin]%andb_true_iff Hty]%andb_true_iff.
  apply negb_true_iff in Hex, Hin. rewrite Hex, Hin.
  destruct (unwrap_optional_and_list _) as [[[o l] i]|]; [simpl|done].
  apply andb_true_iff in Hty as [Hl Hi].
  apply negb_true_iff in Hl, Hi. by rewrite Hl, Hi.
Qed.

Lemma is_list_field_wrap field_info ws T :
  get_field_type field_info = wrap ws T → is_atom T = true →
  is_list_field field_info = has_list ws.
Proof.
  intros Hty HT. unfold is_list_field. rewrite Hty.
  rewrite (unwrap_optional_and_list_fuel (S (length ws)) _
             (outermost_optional ws, has_list ws, T)); [done|].
  apply unwrap_fuel_wrap; [done | lia].
Qed.

Lemma is_leaf_field_wrap config depth field_name field_info ws T :
  get_field_type field_info = wrap ws T → is_atom T = true →
  field_name ∉ get_exclude_fields config →
  get_include_fields config = ∅ ∨ depth ≠ 0
    ∨ field_name ∈ get_include_fields config →
  is_leaf_field config depth (field_name, field_info)
  = negb (has_list ws) && negb (is_pydantic_model T).
Proof.
  intros Hty HT Hex Hin. unfold is_leaf_field.
  rewrite bool_decide_false, include_test_false by done. rewrite Hty.
  rewrite (unwrap_optional_and_list_fuel (S (length ws)) _
             (outermost_optional ws, has_list ws, T)); [done|].
  apply unwrap_fuel_wrap; [done | lia].
Qed.

(** C7. When [max_array_items = 0], a list-typed field gives no column,
    whether its inner type is primitive or not, and the fields that are
    not list-typed give their columns as usual.  A field built from
    Optional and List wrappers is list-typed exactly when a List layer
    is present, and it is a leaf field exactly when no List layer is
    present, the inner type is not a model and the filters keep it; the
    loop leaves [columns] as it is at a list-typed field; above the
    depth cutoff the result of [flatten_schema] is, in
    field order, nothing for a list-typed field, the columns of its
    model for a field that holds a model, and its one column for any
    other field ([columns_without_items]); so the result of [flatten]
    has the column of every leaf field of the model, and it is the
    result for the classes without their list-typed fields. *)
Theorem max_array_items_zero (config : gen_config) :
  get_max_array_items config = 0 →
  (∀ field_info ws T,
     get_field_type field_info = wrap ws T → is_atom T = true →
     is_list_field field_info = has_list ws)
  ∧ (∀ depth field_name field_info ws T,
       get_field_type field_info = wrap ws T → is_atom T = true →
       field_name ∉ get_exclude_fields config →
       get_include_fields config = ∅ ∨ depth ≠ 0
         ∨ field_name ∈ get_include_fields config →
       is_leaf_field config depth (field_name, field_info)
       = negb (has_list ws) && negb (is_pydantic_model T))
  ∧ (∀ (rec : flatten_fn) prefix depth field_name field_info columns,
       is_list_field field_info = true →
       flatten_field rec config prefix depth (field_name, field_info) columns
       = Some columns)
  ∧ (∀ fuel classes model_cls prefix depth,
       depth < get_max_depth config →
       flatten_schema (S fuel) classes model_cls config prefix depth
       = mjoin <$> mapM (columns_without_items (flatten_schema fuel classes)
                           config prefix depth)
                     (get_model_fields classes model_cls))
  ∧ (∀ classes model_cls,
       0 < get_max_depth config →
       ∃ columns,
         flatten classes model_cls config = Some columns
         ∧ ∀ item,
             item ∈ get_model_fields classes model_cls →
             is_leaf_field config 0 item = true →
             apply_case_style item.1 (get_case config) ∈ columns)
  ∧ (∀ fuel classes model_cls prefix depth,
       flatten_schema fuel classes model_cls config prefix depth
       = flatten_schema fuel
           (keep_fields (λ item, negb (is_list_field item.2)) classes)
           model_cls config prefix depth).
Proof.
  intros Hitems. split; [|split; [|split; [|split; [|split]]]].
  - intros field_info ws T. apply is_list_field_wrap.
  - intros depth field_name field_info ws T. apply is_leaf_field_wrap.
  - intros. apply flatten_field_list_no_items; [lia | done].
  - intros. apply flatten_schema_without_items; [lia | done].
  - intros classes model_cls Hdepth.
    destruct (flatten_total classes model_cls config) as [columns Hcolumns].
    exists columns. split; [done|]. intros item Hitem Hleaf.
    unfold flatten in Hcolumns.
    rewrite flatten_schema_without_items in Hcolumns by lia.
    destruct (mapM _ _) as [colss|] eqn:Hmap; [|done].
    injection Hcolumns as <-.
    apply mapM_Some in Hmap.
    apply list_elem_of_lookup in Hitem as [i Hi].
    destruct (Forall2_lookup_l _ _ _ _ _ Hmap Hi) as (cols & Hcols & Hcol).
    rewrite columns_without_items_leaf in Hcol by done.
    injection Hcol as <-.
    apply list_elem_of_join. eexists. split; [|by eapply list_elem_of_lookup_2].
    apply list_elem_of_singleton. reflexivity.
  - intros. symmetry. apply flatten_schema_keep_fields.
    intros rec p d [name info] columns Hinfo. simpl in Hinfo.
    apply negb_false_iff in Hinfo.
    apply flatten_field_list_no_items; [lia | done].
Qed.

Lemma max_array_items_zero_witness :
  get_max_array_items (example_config 2 0) = 0
  ∧ 0 < get_max_depth (example_config 2 0)
  ∧ flatten_schema 3 example_classes (TModel "Patient") (example_config 2 0)
      "" 0
    = mjoin <$> mapM (columns_without_items (flatten_schema 2 example_classes)
                        (example_config 2 0) "" 0)
                  (get_model_fields example_classes (TModel "Patient")).
Proof.
  split; [reflexivity|]. split; [reflexivity|].
  apply (proj1 (proj2 (proj2 (proj2 (max_array_items_zero
                                       (example_config 2 0) eq_refl))))).
  reflexivity.
Defined.

Example columns_without_items_example :
  mapM (columns_without_items (flatten_schema 2 example_classes)
          (example_config 2 0) "" 0)
    (get_model_fields example_classes (TModel "Patient"))
  = Some [["name"]; []].
Proof. vm_compute. reflexivity. Qed.

(** ** Every column is a styled name *)






(** ** [include_fields] below the top level *)

Lemma flatten_field_include_below (rec : flatten_fn) config v prefix depth
    item columns :
  depth ≠ 0 →
  (∀ m p, rec m config p (depth + 1)
          = rec m (with_include_fields config v) p (depth + 1)) →
  flatten_field rec config prefix depth item columns
  = flatten_field rec (with_include_fields config v) prefix depth item
      columns.
Proof.
  intros Hdepth Hrec. unfold flatten_field. destruct item as [name info].
  change (get_separator (with_include_fields config v))
    with (get_separator config).
  change (get_case (with_include_fields config v)) with (get_case config).
  change (get_exclude_fields (with_include_fields config v))
    with (get_exclude_fields config).
  change (get_max_array_items (with_include_fields config v))
    with (get_max_array_items config).
  destruct (bool_decide _); [done|].
  rewrite (proj2 (Z.eqb_neq depth 0)) by done. rewrite !andb_false_r.
  destruct (unwrap_optional_and_list _) as [[[o l] i]|]; [simpl|done].
  destruct l.
  - destruct (is_primitive_type i); [done|].
    apply for_each_ext. intros x s _. by rewrite Hrec.
  - by rewrite Hrec.
Qed.

(** X12. [include_fields] filters the top level only: for the calls
    below the top level ([depth > 0]) the result does not depend on
    it. *)
Theorem include_fields_top_level_only (fuel : nat) (classes : class_table)
    (model_cls : ty) (config : gen_config) (v : list string)
    (prefix : string) (depth : Z) :
  0 < depth →
  flatten_schema fuel classes model_cls config prefix depth
  = flatten_schema fuel classes model_cls (with_include_fields config v)
      prefix depth.
Proof.
  revert model_cls prefix depth.
  induction fuel as [|fuel IH]; intros model_cls prefix depth Hdepth; [done|].
  cbn [flatten_schema].
  change (get_max_depth (with_include_fields config v))
    with (get_max_depth config).
  destruct (_ >=? _); [done|].
  apply for_each_ext. intros item s _.
  apply flatten_field_include_below; [lia|].
  intros m p. apply IH. lia.
Qed.

Lemma include_fields_top_level_only_witness :
  0 < 1
  ∧ flatten_schema 2 example_classes (TModel "Address") example_filter_config
      "address_0" 1
    = flatten_schema 2 example_classes (TModel "Address")
        (with_include_fields example_filter_config []) "address_0" 1.
Proof.
  split; [reflexivity|].
  apply (include_fields_top_level_only 2 example_classes (TModel "Address")
           example_filter_config [] "address_0" 1).
  reflexivity.
Defined.

(** ** The number of columns *)

Lemma for_each_length {A B} (K : nat) (xs : list A)
    (body : A → list B → option (list B)) s r :
  (∀ x s s', body x s = Some s' → (length s' ≤ length s + K)%nat) →
  for_each xs body s = Some r →
  (length r ≤ length s + length xs * K)%nat.
Proof.
  intros Hbody. revert s. induction xs as [|x xs IH]; intros s; simpl.
  - intros [= <-]. lia.
  - destruct (body x s) as [s'|] eqn:Hx; simpl; [|done].
    intros Hr. specialize (IH _ Hr). specialize (Hbody _ _ _ Hx). lia.
Qed.

Lemma flatten_field_length (N : nat) (rec : flatten_fn) config prefix depth
    item columns r :
  (∀ m p cols, rec m config p (depth + 1) = Some cols →
               (length cols ≤ N)%nat) →
  flatten_field rec config prefix depth item columns = Some r →
  (length r ≤ length columns
              + (1 `max` Z.to_nat (get_max_array_items config))
                * (1 `max` N))%nat.
Proof.
  intros Hrec. unfold flatten_field. destruct item as [field_name field_info].
  destruct (bool_decide _); [intros [= <-]; lia|].
  destruct (_ && _); [intros [= <-]; lia|].
  destruct (unwrap_optional_and_list _) as [[[o l] i]|]; [simpl|done].
  set (A := Z.to_nat (get_max_array_items config)).
  assert (length (Py.range (get_max_array_items config)) = A) as Hrange.
  { unfold Py.range. by rewrite length_seq. }
  assert (∀ s p s',
            rec i config p (depth + 1) ≫= (λ cols, Some (s ++ cols)) = Some s' →
            (length s' ≤ length s + (1 `max` N))%nat) as Hbind.
  { intros s p s'. destruct (rec i config p (depth + 1)) as [cols|] eqn:Hp;
      simpl; [|done]. intros [= <-]. rewrite length_app.
    specialize (Hrec _ _ _ Hp). lia. }
  assert (∀ s (c : string) s',
            Some (s ++ [c]) = Some s' →
            (length s' ≤ length s + (1 `max` N))%nat) as Hleaf.
  { intros s c s' [= <-]. rewrite length_app. simpl. lia. }
  destruct l.
  - intros Hr.
    assert (length r ≤ length columns + A * (1 `max` N))%nat; [|nia].
    rewrite <- Hrange. revert Hr.
    destruct (is_primitive_type i); apply for_each_length; intros x s s'.
    + apply Hleaf.
    + destruct (is_pydantic_model i); [apply Hbind | apply Hleaf].
  - intros Hr.
    assert (length r ≤ length columns + (1 `max` N))%nat; [|nia].
    revert Hr. destruct (is_pydantic_model i); [apply Hbind | apply Hleaf].
Qed.

(** X13. The number of columns is bounded by the configuration and the
    size of the models: with at most [fields] fields per class,
    [max_depth - depth] levels give at most
    [columns_bound fields max_array_items (max_depth - depth)]
    columns. *)
Theorem flatten_schema_length_bound (fuel : nat) (classes : class_table)
    (model_cls : ty) (config : gen_config) (prefix : string) (depth : Z)
    (columns : list string) (fields : nat) :
  (∀ cls fs, classes !! cls = Some fs → (length fs ≤ fields)%nat) →
  flatten_schema fuel classes model_cls config prefix depth = Some columns →
  (length columns
   ≤ columns_bound fields (Z.to_nat (get_max_array_items config))
       (Z.to_nat (get_max_depth config - depth)))%nat.
Proof.
  intros Hfields. revert model_cls prefix depth columns.
  induction fuel as [|fuel IH]; intros model_cls prefix depth columns; [done|].
  cbn [flatten_schema]. destruct (depth >=? get_max_depth config) eqn:Hcut.
  { intros [= <-]. simpl. lia. }
  rewrite Z.geb_leb in Hcut. apply Z.leb_gt in Hcut.
  replace (Z.to_nat (get_max_depth config - depth))
    with (S (Z.to_nat (get_max_depth config - (depth + 1)))) by lia.
  cbn [columns_bound].
  set (N := columns_bound fields _ _).
  intros Hr.
  apply (for_each_length
           ((1 `max` Z.to_nat (get_max_array_items config)) * (1 `max` N)))
    in Hr.
  - assert (length (get_model_fields classes model_cls) ≤ fields)%nat
      as Hlen.
    { destruct model_cls; simpl; try lia.
      destruct (classes !! cls) as [fs|] eqn:Hcls; simpl; [|lia].
      by apply (Hfields cls). }
    etrans; [exact Hr|]. simpl. rewrite <- Nat.mul_assoc.
    by apply Nat.mul_le_mono_r.
  - intros item s s'. apply flatten_field_length.
    intros m p cols. apply IH.
Qed.

Lemma flatten_schema_length_bound_witness :
  (∀ cls fs, example_classes !! cls = Some fs → (length fs ≤ 2)%nat)
  ∧ (length ["name"; "address_0_line"; "address_1_line"]
     ≤ columns_bound 2 (Z.to_nat (get_max_array_items (example_config 2 2)))
         (Z.to_nat (get_max_depth (example_config 2 2) - 0)))%nat.
Proof.
  assert (∀ cls fs, example_classes !! cls = Some fs → (length fs ≤ 2)%nat)
    as Hfields.
  { apply (bool_decide_unpack
             (map_Forall (λ _ fs, (length fs ≤ 2)%nat) example_classes)).
    vm_compute. exact I. }
  split; [exact Hfields|].
  apply (flatten_schema_length_bound 3 example_classes (TModel "Patient")
           (example_config 2 2) "" 0 _ 2 Hfields).
  vm_compute. reflexivity.
Defined.

(** ** What [unwrap_optional_and_list] leaves *)

Lemma unwrap_body_not_list (rec : ty → option (bool * bool * ty)) t o i :
  unwrap_body rec t = Some (o, false, i) → get_origin i ≠ OriginList.
Proof.
  unfold unwrap_body.
  destruct (match get_origin t with
            | OriginUnion => _
            | _ => Some (false, false, t)
            end) as [[[o1 l1] i1]|]; [simpl|done].
  destruct (get_origin i1) eqn:Horigin.
  - intros [= _ _ <-]. by rewrite Horigin.
  - intros [= _ _ <-]. by rewrite Horigin.
  - destruct (get_args i1); [done|].
    by destruct (rec _) as [[[??]?]|].
Qed.

(** X14. [unwrap_optional_and_list] always returns, and what it returns
    as inner type is never a [List] with an element type; when
    [is_list] is not set, the inner type is no [List] at all.  So a
    field is indexed at most once, however many List layers its type
    has. *)
Theorem unwrap_optional_and_list_inner (t : ty) :
  ∃ is_optional is_list inner_type,
    unwrap_optional_and_list t = Some (is_optional, is_list, inner_type)
    ∧ (∀ a, inner_type ≠ TList (Some a))
    ∧ (is_list = false → get_origin inner_type ≠ OriginList).
Proof.
  destruct (unwrap_fuel_total (S (ty_height t)) t) as (o & l & i & H & Hi).
  { lia. }
  exists o, l, i. split; [done|]. split; [done|].
  intros ->. by apply (unwrap_body_not_list _ _ _ _ H).
Qed.

(** ** What the configuration is read for *)

Lemma flatten_field_same_settings (rec : flatten_fn) config config' prefix
    depth item columns :
  get_separator config = get_separator config' →
  get_case config = get_case config' →
  get_exclude_fields config = get_exclude_fields config' →
  get_include_fields config = get_include_fields config' →
  get_max_array_items config = get_max_array_items config' →
  (∀ m p d, rec m config p d = rec m config' p d) →
  flatten_field rec config prefix depth item columns
  = flatten_field rec config' prefix depth item columns.
Proof.
  intros Hsep Hcase Hex Hin Hitems Hrec. unfold flatten_field.
  destruct item as [name info].
  rewrite <- Hsep, <- Hcase, <- Hex, <- Hin, <- Hitems.
  destruct (bool_decide _); [done|]. destruct (_ && _); [done|].
  destruct (unwrap_optional_and_list _) as [[[o l] i]|]; [simpl|done].
  destruct l.
  - destruct (is_primitive_type i); [done|].
    apply for_each_ext. intros x s _. by rewrite Hrec.
  - by rewrite Hrec.
Qed.

(** X15. [flatten_schema] reads the configuration only through the six
    keys of its schema section, each with its default: two
    configurations that agree on them give the same result, and
    [include_fields] and [exclude_fields] count as sets, whatever the
    order and the repetitions in their lists. *)
Theorem flatten_schema_same_settings (fuel : nat) (classes : class_table)
    (model_cls : ty) (config config' : gen_config) (prefix : string)
    (depth : Z) :
  get_max_depth config = get_max_depth config' →
  get_separator config = get_separator config' →
  get_case config = get_case config' →
  get_exclude_fields config = get_exclude_fields config' →
  get_include_fields config = get_include_fields config' →
  get_max_array_items config = get_max_array_items config' →
  flatten_schema fuel classes model_cls config prefix depth
  = flatten_schema fuel classes model_cls config' prefix depth.
Proof.
  intros Hdepth Hsep Hcase Hex Hin Hitems. revert model_cls prefix depth.
  induction fuel as [|fuel IH]; intros model_cls prefix depth; [done|].
  cbn [flatten_schema]. rewrite <- Hdepth. destruct (_ >=? _); [done|].
  apply for_each_ext. intros item s _.
  by apply flatten_field_same_settings.
Qed.

Lemma flatten_schema_same_settings_witness :
  get_max_depth create_default_config = get_max_depth example_exclude_config
  ∧ get_exclude_fields create_default_config
    = get_exclude_fields example_exclude_config
  ∧ flatten_schema 4 example_classes (TModel "Patient") create_default_config
      "" 0
    = flatten_schema 4 example_classes (TModel "Patient")
        example_exclude_config "" 0.
Proof.
  assert (get_exclude_fields create_default_config
          = get_exclude_fields example_exclude_config) as Hex.
  { apply (bool_decide_unpack _). vm_compute. exact I. }
  split; [reflexivity|]. split; [exact Hex|].
  apply (flatten_schema_same_settings 4 example_classes (TModel "Patient")
           create_default_config example_exclude_config "" 0);
    (exact Hex || reflexivity).
Defined.

(** ** Prefixes and occurrences *)

Lemma prefix_app sub a t :
  String.prefix sub a = true → String.prefix sub (a +:+ t) = true.
Proof.
  revert a. induction sub as [|c sub IH]; intros a.
  { intros _. by destruct (a +:+ t). }
  destruct a as [|d a]; [done|]. rewrite string_app_cons. simpl.
  destruct (ascii_dec c d); [apply IH | done].
Qed.

Lemma before_prefix sep s : ∃ t, s = Str.before sep s +:+ t.
Proof.
  induction s as [|c s [t IH]]; cbn [Str.before].
  - exists "". by destruct (String.prefix sep "").
  - destruct (String.prefix sep (String c s)).
    + by exists (String c s).
    + exists t. rewrite string_app_cons. by f_equal.
Qed.

Lemma contains_before sep s :
  sep ≠ "" → Str.contains sep (Str.before sep s) = false.
Proof.
  destruct sep as [|a sep]; [done|]. intros _.
  induction s as [|c s IH]; [done|].
  cbn [Str.before].
  destruct (String.prefix (String a sep) (String c s)) eqn:Hp; [done|].
  cbn [Str.contains]. rewrite IH, orb_false_r.
  destruct (String.prefix (String a sep)
              (String c (Str.before (String a sep) s))) eqn:Hq; [|done].
  destruct (before_prefix (String a sep) s) as [t Ht].
  apply (prefix_app _ _ t) in Hq. rewrite string_app_cons, <- Ht in Hq.
  congruence.
Qed.

Lemma before_not_contains sep s :
  Str.contains sep s = false → Str.before sep s = s.
Proof.
  induction s as [|c s IH]; simpl.
  - by intros [-> _]%orb_false_iff.
  - intros [-> Hs]%orb_false_iff. by rewrite IH.
Qed.

Lemma before_no_char c sep s :
  c ∉ Py.chars s → c ∉ Py.chars (Str.before sep s).
Proof.
  destruct (before_prefix sep s) as [t Ht]. intros Hs Hin. apply Hs.
  rewrite Ht, chars_app. apply elem_of_app. by left.
Qed.

(** ** Lines *)

Lemma join_sep_cons sep w w' ws :
  Str.join_sep sep (w :: w' :: ws) = w +:+ sep +:+ Str.join_sep sep (w' :: ws).
Proof. reflexivity. Qed.

Lemma join_sep_split c s :
  Str.join_sep (String c "") (Py.split c s) = s.
Proof.
  induction s as [|d s IH]; [done|]. simpl.
  destruct (Ascii.eqb_spec d c) as [->|Hd].
  - destruct (split_cons c s) as (w & ws & Hsplit). rewrite Hsplit in *.
    rewrite join_sep_cons, IH. reflexivity.
  - destruct (split_cons c s) as (w & ws & Hsplit). rewrite Hsplit in *.
    destruct ws as [|w' ws].
    + simpl in *. by rewrite IH.
    + rewrite join_sep_cons in *. rewrite string_app_cons. by rewrite IH.
Qed.

Lemma split_join_sep c ws :
  ws ≠ [] → Forall (λ w, c ∉ Py.chars w) ws →
  Py.split c (Str.join_sep (String c "") ws) = ws.
Proof.
  intros Hne Hws. induction Hws as [|w ws Hw Hws IH]; [done|].
  assert (Forall (λ x, x ≠ c) (Py.chars w)) as Hw'.
  { apply Forall_forall. intros x Hx ->. by apply Hw. }
  destruct ws as [|w' ws].
  - by apply split_word.
  - rewrite join_sep_cons, string_app_cons, string_app_nil_l.
    rewrite split_word_sep by done. f_equal. by apply IH.
Qed.

Lemma foldl_append_fmap {A B} (f : A → B) (l : list A) (acc : list B) :
  foldl (λ acc x, acc ++ [f x]) acc l = acc ++ (f <$> l).
Proof.
  revert acc. induction l as [|x l IH]; intros acc; simpl.
  - by rewrite app_nil_r.
  - rewrite IH. by rewrite <- app_assoc.
Qed.

Lemma remove_comments_lines content :
  remove_comments content
  = Str.join_sep (String Str.newline "")
      (remove_line_comment <$> Py.split Str.newline content).
Proof. unfold remove_comments. by rewrite foldl_append_fmap. Qed.

Lemma remove_line_comment_no_newline line :
  Str.newline ∉ Py.chars line →
  Str.newline ∉ Py.chars (remove_line_comment line).
Proof.
  unfold remove_line_comment. destruct (Str.contains "//" line); [|done].
  apply before_no_char.
Qed.

Lemma remove_line_comment_clean line :
  Str.contains "//" (remove_line_comment line) = false.
Proof.
  unfold remove_line_comment. destruct (Str.contains "//" line) eqn:Hc; [|done].
  by apply contains_before.
Qed.

Lemma prefix_nil s : String.prefix "" s = true.
Proof. by destruct s. Qed.

(** A line break between two lines makes no [//]. *)
Lemma contains_comment_lines a b :
  Str.contains "//" (a +:+ String Str.newline b)
  = Str.contains "//" a || Str.contains "//" b.
Proof.
  induction a as [|c a IH].
  - rewrite string_app_nil_l. reflexivity.
  - rewrite string_app_cons.
    change (Str.contains "//" (String c ?s))
      with (String.prefix "//" (String c s) || Str.contains "//" s).
    rewrite IH, orb_assoc. f_equal. f_equal.
    destruct a as [|d a].
    + rewrite string_app_nil_l. simpl. by destruct (ascii_dec "/" c).
    + rewrite string_app_cons.
      change (String.prefix "//" (String c (String d ?s)))
        with (if ascii_dec "/" c
              then if ascii_dec "/" d then String.prefix "" s else false
              else false).
      by rewrite !prefix_nil.
Qed.

Lemma contains_comment_join lines :
  Str.contains "//" (Str.join_sep (String Str.newline "") lines)
  = existsb (Str.contains "//") lines.
Proof.
  induction lines as [|l [|l' lines] IH]; [done| |].
  - simpl. by rewrite orb_false_r.
  - rewrite join_sep_cons, string_app_cons, string_app_nil_l.
    rewrite contains_comment_lines, IH. reflexivity.
Qed.

Lemma remove_comments_clean content :
  Str.contains "//" (remove_comments content) = false.
Proof.
  rewrite remove_comments_lines, contains_comment_join.
  induction (Py.split Str.newline content) as [|l lines IH]; [done|].
  rewrite fmap_cons. cbn [existsb].
  by rewrite remove_line_comment_clean, IH.
Qed.

(** X16. After the comments are removed, no [//] is left anywhere in the
    content, and no line break is added or lost. *)
Theorem remove_comments_no_comment_left (content : string) :
  Str.contains "//" (remove_comments content) = false
  ∧ length (Py.split Str.newline (remove_comments content))
    = length (Py.split Str.newline content).
Proof.
  split; [apply remove_comments_clean|].
  rewrite remove_comments_lines, split_join_sep, length_fmap; [done| |].
  - destruct (split_cons Str.newline content) as (w & ws & ->). done.
  - apply Forall_fmap. eapply Forall_impl; [apply split_no_sep|].
    intros line. apply remove_line_comment_no_newline.
Qed.

Lemma split_remove_comments content :
  Py.split Str.newline (remove_comments content)
  = remove_line_comment <$> Py.split Str.newline content.
Proof.
  rewrite remove_comments_lines. apply split_join_sep.
  - destruct (split_cons Str.newline content) as (w & ws & ->). done.
  - apply Forall_fmap. eapply Forall_impl; [apply split_no_sep|].
    intros line. apply remove_line_comment_no_newline.
Qed.

(** X17. Comments are removed line by line: the cleaned content has the
    lines of the content, in the same number and order, each cut at its
    first [//], wherever that is in the line. *)
Theorem remove_comments_line_by_line (content : string) :
  Py.split Str.newline (remove_comments content)
  = (λ line, Str.before "//" line) <$> Py.split Str.newline content.
Proof.
  rewrite split_remove_comments. apply list_fmap_ext. intros _ line _.
  unfold remove_line_comment.
  destruct (Str.contains "//" line) eqn:Hc; [done|].
  by rewrite before_not_contains.
Qed.

Lemma remove_line_comments_without lines :
  existsb (Str.contains "//") lines = false →
  remove_line_comment <$> lines = lines.
Proof.
  induction lines as [|l lines IH]; [done|]. cbn [existsb].
  intros [Hl Hlines]%orb_false_iff. rewrite fmap_cons, IH by done.
  unfold remove_line_comment. by rewrite Hl.
Qed.

Lemma remove_comments_without content :
  Str.contains "//" content = false → remove_comments content = content.
Proof.
  intros Hc. rewrite remove_comments_lines.
  rewrite <- (join_sep_split Str.newline content) in Hc.
  rewrite contains_comment_join in Hc.
  rewrite remove_line_comments_without by done.
  apply join_sep_split.
Qed.

(** X18. A content without [//] is returned as it is, character for
    character, so removing the comments twice is the same as removing
    them once. *)
Theorem remove_comments_fixed (content : string) :
  (Str.contains "//" content = false → remove_comments content = content)
  ∧ remove_comments (remove_comments content) = remove_comments content.
Proof.
  split; [apply remove_comments_without|].
  apply remove_comments_without, remove_comments_clean.
Qed.

Lemma remove_comments_fixed_witness :
  Str.contains "//" "max_depth: 3" = false
  ∧ remove_comments "max_depth: 3" = "max_depth: 3".
Proof.
  split; [reflexivity|].
  apply (proj1 (remove_comments_fixed "max_depth: 3")). reflexivity.
Defined.

Example remove_comments_url :
  remove_comments "url: http://hl7.org/fhir // the base" = "url: http:".
Proof. reflexivity. Qed.

(** ** Decimal digits *)

Lemma digit_value_pretty_N_char d :
  (d < 10)%N → digit_value (pretty_N_char d) = d.
Proof.
  intros Hd.
  assert (d = 0 ∨ d = 1 ∨ d = 2 ∨ d = 3 ∨ d = 4 ∨ d = 5 ∨ d = 6 ∨ d = 7
          ∨ d = 8 ∨ d = 9)%N as Hcases by lia.
  repeat (destruct Hcases as [->|Hcases]; [reflexivity|]). by subst.
Qed.

Lemma parse_pretty_N_go x s :
  foldl (λ acc c, 10 * acc + digit_value c)%N 0%N
    (Py.chars (pretty_N_go x s))
  = foldl (λ acc c, 10 * acc + digit_value c)%N x (Py.chars s).
Proof.
  revert s. induction (N.lt_wf_0 x) as [x _ IH]; intros s.
  destruct (decide (x = 0)%N) as [->|Hx]; [done|].
  rewrite pretty_N_go_step by lia.
  rewrite IH by (apply N.div_lt; lia). simpl.
  rewrite digit_value_pretty_N_char by (apply N.mod_lt; lia).
  f_equal. pose proof (N.div_mod x 10). lia.
Qed.

Lemma parse_decimal_pretty (x : N) : parse_decimal (pretty x) = x.
Proof.
  unfold parse_decimal, pretty, pretty_N.
  destruct (decide (x = 0)%N) as [->|Hx]; [done|].
  by rewrite (parse_pretty_N_go x "").
Qed.

Lemma parse_decimal_zfill width s :
  parse_decimal (Str.zfill width s) = parse_decimal s.
Proof.
  unfold parse_decimal, Str.zfill. rewrite chars_app, chars_of_chars, foldl_app.
  f_equal. induction (width - String.length s)%nat as [|n IH]; [done|].
  simpl. exact IH.
Qed.

Lemma format_0d_inj width (m n : nat) :
  Str.format_0d width (Z.of_nat m) = Str.format_0d width (Z.of_nat n) →
  m = n.
Proof.
  unfold Str.format_0d. rewrite !bool_decide_false by lia.
  intros H. apply (f_equal parse_decimal) in H.
  rewrite !parse_decimal_zfill, !parse_decimal_pretty in H. lia.
Qed.

Lemma make_id_inj resource_name m n :
  make_id resource_name m = make_id resource_name n → m = n.
Proof.
  unfold make_id. intros H. do 2 apply String.app_inj in H.
  by apply format_0d_inj in H.
Qed.

(** ** The id loop *)

Lemma next_free_id_unfold fuel name c used :
  next_free_id fuel name c used
  = if bool_decide (make_id name c ∈ used) then
      match fuel with
      | O => None
      | S fuel => next_free_id fuel name (S c) used
      end
    else Some (c, make_id name c).
Proof. by destruct fuel. Qed.

Lemma next_free_id_ext fuel name c (used used' : gset string) :
  (∀ k, (c ≤ k)%nat → make_id name k ∈ used ↔ make_id name k ∈ used') →
  next_free_id fuel name c used = next_free_id fuel name c used'.
Proof.
  revert c. induction fuel as [|fuel IH]; intros c Hsame;
    rewrite !(next_free_id_unfold _ name c);
    rewrite (bool_decide_ext _ _ (Hsame c (Nat.le_refl c))); [done|].
  case_bool_decide; [|done]. apply IH. intros k Hk. apply Hsame. lia.
Qed.

Lemma next_free_id_total fuel name c (used : gset string) :
  (size used ≤ fuel)%nat → is_Some (next_free_id fuel name c used).
Proof.
  revert c used. induction fuel as [|fuel IH]; intros c used Hsize;
    rewrite next_free_id_unfold; case_bool_decide as Hin; try by eauto.
  - assert (used ≡ ∅) as Hempty by (apply size_empty_inv; lia). set_solver.
  - rewrite (next_free_id_ext fuel name (S c) used
               (used ∖ {[make_id name c]})).
    + apply IH. rewrite size_difference by set_solver.
      rewrite size_singleton.
      assert (size used ≠ 0)%nat; [|lia].
      intros Hz%size_empty_inv. set_solver.
    + intros k Hk. rewrite elem_of_difference, not_elem_of_singleton.
      split; [|by intros [? _]]. intros Hk'. split; [done|].
      intros Heq%make_id_inj. lia.
Qed.

Lemma next_free_id_spec fuel name c (used : gset string) c' id :
  next_free_id fuel name c used = Some (c', id) →
  (c ≤ c' ≤ c + fuel)%nat
  ∧ id = make_id name c'
  ∧ (id ∉ used)
  ∧ ∀ k, (c ≤ k < c')%nat → make_id name k ∈ used.
Proof.
  revert c. induction fuel as [|fuel IH]; intros c;
    rewrite next_free_id_unfold; case_bool_decide as Hin; try done.
  - intros [= <- <-]. repeat split; try done; try lia; intros k ?; lia.
  - intros (Hc & -> & Hfresh & Hused)%IH. repeat split; try done; try lia.
    intros k Hk. destruct (decide (k = c)) as [->|?]; [done|].
    apply Hused. lia.
  - intros [= <- <-]. repeat split; try done; try lia; intros k ?; lia.
Qed.

(** ** [generate_value] *)

Section generate_value.
Context {rng : Type} (R : random_source rng).
Implicit Types (g : FHIRDataGenerator) (r : rng).

Lemma generate_value_id g col r :
  is_id_column col = true →
  generate_value R g col r
  = '(c, id) ← next_free_id (size (used_ids g)) (resource_name g)
                 (S (counter g)) (used_ids g);
    Some (VStr id,
          Generator (resource_name g) c ({[id]} ∪ used_ids g), r).
Proof.
  unfold is_id_column, generate_value. cbn [used_ids]. by intros ->.
Qed.

Lemma generate_value_other g col r :
  is_id_column col = false →
  ∃ v r',
    generate_value R g col r
    = Some (v, Generator (resource_name g) (S (counter g)) (used_ids g), r').
Proof.
  unfold is_id_column, generate_value. intros ->.
  repeat case_match; eauto.
Qed.

End generate_value.

Section generator_properties.
Context {rng : Type} (R : random_source rng).
Implicit Types (g : FHIRDataGenerator) (r : rng).

Lemma generate_value_id_result g col r :
  is_id_column col = true →
  ∃ c id,
    generate_value R g col r
    = Some (VStr id, Generator (resource_name g) c ({[id]} ∪ used_ids g), r)
    ∧ (S (counter g) ≤ c ≤ S (counter g) + size (used_ids g))%nat
    ∧ id = make_id (resource_name g) c
    ∧ (id ∉ used_ids g)
    ∧ ∀ k, (S (counter g) ≤ k < c)%nat →
           make_id (resource_name g) k ∈ used_ids g.
Proof.
  intros Hid. rewrite generate_value_id by done.
  destruct (next_free_id_total (size (used_ids g)) (resource_name g)
              (S (counter g)) (used_ids g)) as [[c id] Hnext]; [done|].
  rewrite Hnext. exists c, id. split; [done|].
  by apply next_free_id_spec in Hnext.
Qed.

(** X19. [generate_value] returns for every column and every state of
    the generator: the id loop ends after at most as many rounds as
    there are used ids.  The counter goes up by at least one, the
    resource name stays, and no used id is forgotten. *)
Theorem generate_value_returns (g : FHIRDataGenerator) (col : string)
    (r : rng) :
  ∃ v g' r',
    generate_value R g col r = Some (v, g', r')
    ∧ resource_name g' = resource_name g
    ∧ (counter g < counter g' ≤ S (counter g) + size (used_ids g))%nat
    ∧ used_ids g ⊆ used_ids g'.
Proof.
  destruct (is_id_column col) eqn:Hid.
  - destruct (generate_value_id_result g col r Hid)
      as (c & id & -> & Hc & _).
    eexists _, _, _. split; [done|]. simpl. split; [done|].
    split; [lia | set_solver].
  - destruct (generate_value_other R g col r Hid) as (v & r' & ->).
    eexists _, _, _. split; [done|]. simpl. split; [done|].
    split; [lia | done].
Qed.

(** X20. For an id column, the value is an id that was not in
    [used_ids]; it is made from the counter the generator is left with,
    it is added to [used_ids], and no random draw is made. *)
Theorem generate_value_fresh_id (g : FHIRDataGenerator) (col : string)
    (r : rng) :
  is_id_column col = true →
  ∃ id g',
    generate_value R g col r = Some (VStr id, g', r)
    ∧ (id ∉ used_ids g)
    ∧ id = make_id (resource_name g) (counter g')
    ∧ used_ids g' = {[id]} ∪ used_ids g.
Proof.
  intros Hid.
  destruct (generate_value_id_result g col r Hid)
    as (c & id & -> & _ & -> & Hfresh & _).
  by eexists _, _.
Qed.

Lemma ids_issued_new resource_name : ids_issued (new_generator resource_name).
Proof. intros id Hid. set_solver. Qed.

(** One call on a generator whose used ids were all made from earlier
    counter values. *)
Lemma generate_value_issued_step g col r :
  ids_issued g →
  ∃ v r',
    generate_value R g col r
    = Some (v,
            Generator (resource_name g) (S (counter g))
              (if is_id_column col
               then {[make_id (resource_name g) (S (counter g))]}
                    ∪ used_ids g
               else used_ids g),
            r')
    ∧ (is_id_column col = true →
       v = VStr (make_id (resource_name g) (S (counter g))))
    ∧ ids_issued
        (Generator (resource_name g) (S (counter g))
           (if is_id_column col
            then {[make_id (resource_name g) (S (counter g))]} ∪ used_ids g
            else used_ids g)).
Proof.
  intros Hissued.
  assert (make_id (resource_name g) (S (counter g)) ∉ used_ids g) as Hfresh.
  { intros (k & Hk & Heq%make_id_inj)%Hissued. lia. }
  destruct (is_id_column col) eqn:Hid.
  - rewrite generate_value_id by done.
    assert (next_free_id (size (used_ids g)) (resource_name g)
              (S (counter g)) (used_ids g)
            = Some (S (counter g), make_id (resource_name g) (S (counter g))))
      as ->.
    { rewrite next_free_id_unfold. by rewrite bool_decide_false. }
    eexists _, _. split; [done|]. split; [done|].
    intros id [->%elem_of_singleton|Hin]%elem_of_union; simpl.
    + exists (S (counter g)). split; [lia | done].
    + destruct (Hissued id Hin) as (k & Hk & ->).
      exists k. split; [lia | done].
  - destruct (generate_value_other R g col r Hid) as (v & r' & ->).
    exists v, r'. split; [done|]. split; [done|].
    intros id Hin. simpl in *.
    destruct (Hissued id Hin) as (k & Hk & ->). exists k. split; [lia | done].
Qed.

(** X21. On a generator whose used ids were all made from earlier
    counter values, as they are from [FHIRDataGenerator(name)] on, the
    id loop makes no round: every call moves the counter by exactly one,
    an id column gets the id of the new counter value, and the
    generator stays in such a state. *)
Theorem generate_value_counts (g : FHIRDataGenerator) (col : string)
    (r : rng) :
  ids_issued (new_generator (resource_name g))
  ∧ (ids_issued g →
     ∃ v g' r',
       generate_value R g col r = Some (v, g', r')
       ∧ counter g' = S (counter g)
       ∧ ids_issued g'
       ∧ (is_id_column col = true →
          v = VStr (make_id (resource_name g) (S (counter g))))).
Proof.
  split; [apply ids_issued_new|]. intros Hissued.
  destruct (generate_value_issued_step g col r Hissued)
    as (v & r' & -> & Hv & Hissued').
  by eexists _, _, _.
Qed.

End generator_properties.

Lemma generate_value_fresh_id_witness :
  is_id_column "patient_id" = true
  ∧ ∃ id g',
      generate_value first_choice example_generator "patient_id" tt
      = Some (VStr id, g', tt)
      ∧ (id ∉ used_ids example_generator)
      ∧ id = make_id (resource_name example_generator) (counter g')
      ∧ used_ids g' = {[id]} ∪ used_ids example_generator.
Proof.
  split; [reflexivity|].
  apply (generate_value_fresh_id first_choice example_generator
           "patient_id" tt).
  reflexivity.
Defined.

Lemma generate_value_counts_witness :
  ids_issued (new_generator "Patient")
  ∧ ∃ v g' r',
      generate_value first_choice (new_generator "Patient") "id" tt
      = Some (v, g', r')
      ∧ counter g' = 1%nat
      ∧ ids_issued g'
      ∧ (is_id_column "id" = true → v = VStr (make_id "Patient" 1)).
Proof.
  split; [apply ids_issued_new|].
  apply (proj2 (generate_value_counts first_choice (new_generator "Patient")
                  "id" tt)).
  apply ids_issued_new.
Defined.

Example generate_value_skips_used :
  generate_value first_choice example_generator "patient_id" tt
  = Some (VStr "patient-000002",
          Generator "Patient" 2 ({["patient-000002"]} ∪ {["patient-000001"]}),
          tt).
Proof. vm_compute. reflexivity. Qed.

(** ** The records of [main] *)

Section generate_data.
Context {rng : Type} (R : random_source rng).
Implicit Types (g : FHIRDataGenerator) (r : rng).

(** The inner loop, from any record built so far. *)
Lemma generate_record_loop (cols : list string) (record : gmap string value)
    g r :
  NoDup cols → ids_issued g →
  ∃ record' g' r',
    for_each cols
      (λ col '(record, generator, r),
         '(v, generator, r) ← generate_value R generator col r;
         Some (<[col := v]> record, generator, r))
      (record, g, r)
    = Some (record', g', r')
    ∧ resource_name g' = resource_name g
    ∧ counter g' = (counter g + length cols)%nat
    ∧ ids_issued g'
    ∧ dom record' = dom record ∪ list_to_set cols
    ∧ (∀ key, key ∉ cols → record' !! key = record !! key)
    ∧ (∀ p col, cols !! p = Some col → is_id_column col = true →
         record' !! col
         = Some (VStr (make_id (resource_name g) (counter g + p + 1)))).
Proof.
  intros Hnodup. revert record g r.
  induction Hnodup as [|col cols Hcol Hnodup IH]; intros record g r Hissued.
  - exists record, g, r. simpl. repeat split; try done; try lia;
      first [ set_solver | intros p col Hp; by rewrite lookup_nil in Hp ].
  - simpl.
    destruct (generate_value_issued_step R g col r Hissued)
      as (v & r1 & -> & Hv & Hissued1). simpl.
    destruct (IH (<[col := v]> record) _ r1 Hissued1)
      as (record' & g' & r' & -> & Hname & Hcounter & Hissued' & Hdom
          & Hkeep & Hids).
    simpl in *. exists record', g', r'. repeat split; try done; try lia.
    + rewrite Hdom, dom_insert_L. set_solver.
    + intros key Hkey. rewrite Hkeep by set_solver.
      apply lookup_insert_ne. set_solver.
    + intros [|p] c Hp Hid; simpl in Hp.
      * injection Hp as <-. rewrite Hkeep by done.
        rewrite lookup_insert_eq, (Hv Hid). do 3 f_equal. lia.
      * rewrite (Hids p c Hp Hid). do 3 f_equal. lia.
Qed.

Lemma generate_record_issued (cols : list string) g r :
  NoDup cols → ids_issued g →
  ∃ record g' r',
    generate_record R cols g r = Some (record, g', r')
    ∧ resource_name g' = resource_name g
    ∧ counter g' = (counter g + length cols)%nat
    ∧ ids_issued g'
    ∧ dom record = list_to_set cols
    ∧ (∀ p col, cols !! p = Some col → is_id_column col = true →
         record !! col
         = Some (VStr (make_id (resource_name g) (counter g + p + 1)))).
Proof.
  intros Hnodup Hissued.
  destruct (generate_record_loop cols ∅ g r Hnodup Hissued)
    as (record & g' & r' & Hloop & Hname & Hcounter & Hissued' & Hdom
        & _ & Hids).
  exists record, g', r'. repeat split; try done.
  rewrite Hdom. set_solver.
Qed.

(** The outer loop, whatever the list it runs over, from any data
    collected so far. *)
Lemma generate_data_loop (cols : list string) (xs : list nat)
    (data : list (gmap string value)) g r :
  NoDup cols → ids_issued g →
  ∃ data' g' r',
    for_each xs
      (λ i '(data, generator, r),
         '(record, generator, r) ← generate_record R cols generator r;
         Some (data ++ [record], generator, r))
      (data, g, r)
    = Some (data ++ data', g', r')
    ∧ length data' = length xs
    ∧ ∀ i record, data' !! i = Some record →
        dom record = list_to_set cols
        ∧ ∀ p col, cols !! p = Some col → is_id_column col = true →
            record !! col
            = Some (VStr (make_id (resource_name g)
                            (counter g + i * length cols + p + 1))).
Proof.
  intros Hnodup. revert data g r.
  induction xs as [|x xs IH]; intros data g r Hissued.
  - exists [], g, r. simpl. rewrite app_nil_r. repeat split; try done.
    all: by rewrite lookup_nil in H.
  - simpl.
    destruct (generate_record_issued cols g r Hnodup Hissued)
      as (record & g1 & r1 & -> & Hname & Hcounter & Hissued1 & Hdom & Hids).
    simpl.
    destruct (IH (data ++ [record]) g1 r1 Hissued1)
      as (data' & g' & r' & -> & Hlen & Hdata).
    exists (record :: data'), g', r'. rewrite <- app_assoc. simpl.
    split; [done|]. split; [lia|].
    intros [|i] rec Hi; simpl in Hi.
    + injection Hi as <-. split; [done|]. intros p col Hp Hid.
      rewrite (Hids p col Hp Hid). do 3 f_equal. lia.
    + destruct (Hdata i rec Hi) as [Hdom' Hids']. split; [done|].
      intros p col Hp Hid. rewrite (Hids' p col Hp Hid), Hname, Hcounter.
      do 3 f_equal. lia.
Qed.

Lemma generate_data_issued (record_count : Z) (columns : list string)
    (name : string) r :
  ∃ data g' r',
    generate_data R record_count (unique_columns_of columns)
      (new_generator name) r
    = Some (data, g', r')
    ∧ length data = Z.to_nat record_count
    ∧ ∀ i record, data !! i = Some record →
        dom record = list_to_set columns
        ∧ ∀ p col, unique_columns_of columns !! p = Some col →
            is_id_column col = true →
            record !! col
            = Some (VStr (make_id name
                            (i * length (unique_columns_of columns) + p + 1))).
Proof.
  destruct (generate_data_loop (unique_columns_of columns)
              (Py.range record_count) [] (new_generator name) r)
    as (data & g' & r' & Hloop & Hlen & Hdata).
  { apply unique_columns_of_nodup. }
  { apply ids_issued_new. }
  exists data, g', r'. split; [exact Hloop|]. split.
  { rewrite Hlen. unfold Py.range. by rewrite length_seq. }
  intros i record Hi. destruct (Hdata i record Hi) as [Hdom Hids].
  split; [|exact Hids].
  rewrite Hdom. apply set_eq. intros col. rewrite !elem_of_list_to_set.
  unfold unique_columns_of.
  destruct (foldl dedup_step ([], ∅) columns) as [u seen] eqn:Hfold.
  by destruct (dedup_invariant _ _ _ Hfold) as (_ & Hmem & _).
Qed.

End generate_data.

(** X22. [main] gets [record_count] records (none when it is not
    positive), and every record has exactly the flattened columns as its
    keys. *)
Theorem generate_data_shape {rng : Type} (R : random_source rng)
    (record_count : Z) (columns : list string) (name : string) (r : rng) :
  ∃ data g' r',
    generate_data R record_count (unique_columns_of columns)
      (new_generator name) r
    = Some (data, g', r')
    ∧ length data = Z.to_nat record_count
    ∧ ∀ record, record ∈ data → dom record = list_to_set columns.
Proof.
  destruct (generate_data_issued R record_count columns name r)
    as (data & g' & r' & Hdata & Hlen & Hrecords).
  exists data, g', r'. split; [done|]. split; [done|].
  intros record [i Hi]%list_elem_of_lookup. by destruct (Hrecords i record Hi).
Qed.

(** X23. In the data of [main], the id columns count the calls of the
    generator: with [m] columns, the id column at position [p] of
    record [i] holds the id made from [i * m + p + 1]. *)
Theorem generate_data_ids {rng : Type} (R : random_source rng)
    (record_count : Z) (columns : list string) (name : string) (r : rng) :
  ∃ data g' r',
    generate_data R record_count (unique_columns_of columns)
      (new_generator name) r
    = Some (data, g', r')
    ∧ ∀ i record p col,
        data !! i = Some record →
        unique_columns_of columns !! p = Some col →
        is_id_column col = true →
        record !! col
        = Some (VStr (make_id name
                        (i * length (unique_columns_of columns) + p + 1))).
Proof.
  destruct (generate_data_issued R record_count columns name r)
    as (data & g' & r' & Hdata & Hlen & Hrecords).
  exists data, g', r'. split; [done|].
  intros i record p col Hi Hp Hid.
  destruct (Hrecords i record Hi) as [_ Hids]. by apply Hids.
Qed.

(** X24. In the data of [main], no id occurs twice: two id columns of
    one record, and the id columns of two records, always hold
    different values. *)
Theorem generate_data_ids_distinct {rng : Type} (R : random_source rng)
    (record_count : Z) (columns : list string) (name : string) (r : rng) :
  ∃ data g' r',
    generate_data R record_count (unique_columns_of columns)
      (new_generator name) r
    = Some (data, g', r')
    ∧ ∀ i i' record record' col col',
        data !! i = Some record → data !! i' = Some record' →
        col ∈ columns → col' ∈ columns →
        is_id_column col = true → is_id_column col' = true →
        (i, col) ≠ (i', col') →
        record !! col ≠ record' !! col'.
Proof.
  destruct (generate_data_issued R record_count columns name r)
    as (data & g' & r' & Hdata & Hlen & Hrecords).
  exists data, g', r'. split; [done|].
  intros i i' record record' col col' Hi Hi' Hcol Hcol' Hid Hid' Hne Heq.
  assert (∀ c, c ∈ columns → c ∈ unique_columns_of columns) as Hunique.
  { intros c Hc. unfold unique_columns_of.
    destruct (foldl dedup_step ([], ∅) columns) as [u seen] eqn:Hfold.
    destruct (dedup_invariant _ _ _ Hfold) as (_ & Hmem & _). by apply Hmem. }
  apply Hunique, list_elem_of_lookup in Hcol as [p Hp].
  apply Hunique, list_elem_of_lookup in Hcol' as [p' Hp'].
  destruct (Hrecords i record Hi) as [_ Hids].
  destruct (Hrecords i' record' Hi') as [_ Hids'].
  rewrite (Hids p col Hp Hid), (Hids' p' col' Hp' Hid') in Heq.
  injection Heq as Heq. apply make_id_inj in Heq.
  pose proof (lookup_lt_Some _ _ _ Hp) as Hlt.
  pose proof (lookup_lt_Some _ _ _ Hp') as Hlt'.
  set (m := length (unique_columns_of columns)) in *.
  assert (i = i') as -> by nia.
  assert (p = p') as -> by lia.
  rewrite Hp in Hp'. injection Hp' as ->. done.
Qed.

Example generate_data_two_records :
  match generate_data first_choice 2 (unique_columns_of ["id"; "name"; "id"])
          (new_generator "Patient") tt with
  | Some (data, _, _) =>
      (λ record : gmap string value, record !! "id") <$> data
  | None => []
  end
  = [Some (VStr "patient-000001"); Some (VStr "patient-000003")].
Proof. vm_compute. reflexivity. Qed.

(** ** Id columns and case styles *)

Lemma endswith_app suffix s :
  Str.endswith suffix s = true → ∃ pre, s = pre +:+ suffix.
Proof.
  induction s as [|c s IH]; cbn [Str.endswith].
  - rewrite orb_false_r. intros Heq%String.eqb_eq. exists "". by subst.
  - intros [Heq%String.eqb_eq|Hs]%orb_true_iff.
    + exists "". by subst.
    + destruct (IH Hs) as [pre ->]. by exists (String c pre).
Qed.

Lemma id_column_without_underscore col :
  is_id_column col = true → "_"%char ∉ Py.chars col →
  Py.lower_str col = "id".
Proof.
  unfold is_id_column.
  intros [Heq%String.eqb_eq|Hs]%orb_true_iff Hcol; [done|].
  apply lower_str_no_underscore in Hcol.
  destruct (endswith_app _ _ Hs) as [pre Hpre]. rewrite Hpre in Hcol.
  exfalso. apply Hcol. rewrite chars_app. apply elem_of_app. right. left.
Qed.

(** X25. With the camel or pascal style, a column takes the id branch
    of [generate_value] only when it is named [id], up to case: these
    styles leave no underscore, so no column ends with [_id]. *)
Theorem id_columns_of_camel_pascal (name : string) :
  (is_id_column (apply_case_style name "camel") = true →
   Py.lower_str (apply_case_style name "camel") = "id")
  ∧ (is_id_column (apply_case_style name "pascal") = true →
     Py.lower_str (apply_case_style name "pascal") = "id").
Proof.
  destruct (to_camel_pascal_no_underscore name) as [Hcamel Hpascal].
  split; intros Hid; by apply id_column_without_underscore.
Qed.

Example patient_id_camel :
  apply_case_style "patient_id" "camel" = "patientId"
  ∧ is_id_column "patient_id" = true
  ∧ is_id_column "patientId" = false.
Proof. repeat split. Qed.

(** ** Module names in the directory scan *)

Lemma lower_str_app s t :
  Py.lower_str (s +:+ t) = Py.lower_str s +:+ Py.lower_str t.
Proof.
  induction s as [|c s IH]; [done|]. rewrite string_app_cons. simpl.
  by rewrite IH.
Qed.

Lemma lower_of_upper c : Py.lower (Py.upper c) = Py.lower c.
Proof. by_char c. Qed.

Lemma lower_str_lower_str s : Py.lower_str (Py.lower_str s) = Py.lower_str s.
Proof. induction s as [|c s IH]; simpl; [done|]. by rewrite lower_lower, IH. Qed.

Lemma lower_str_capitalize w : Py.lower_str (Py.capitalize w) = Py.lower_str w.
Proof.
  destruct w as [|c w]; [done|]. simpl.
  by rewrite lower_of_upper, lower_str_lower_str.
Qed.

Lemma lower_str_join_capitalize ws :
  Py.lower_str (Py.join (Py.capitalize <$> ws)) = Py.lower_str (Py.join ws).
Proof.
  induction ws as [|w ws IH]; [done|].
  rewrite fmap_cons, !join_cons, !lower_str_app, IH.
  by rewrite lower_str_capitalize.
Qed.

Lemma chars_join_split sep s :
  Py.chars (Py.join (Py.split sep s)) = filter (λ c, c ≠ sep) (Py.chars s).
Proof.
  induction s as [|c s IH]; [done|]. cbn [Py.split Py.chars list_ascii_of_string].
  rewrite filter_cons. destruct (Ascii.eqb_spec c sep) as [->|Hc].
  - rewrite decide_False by (by intros []).
    by rewrite join_cons, string_app_nil_l.
  - rewrite decide_True by done.
    destruct (split_cons sep s) as (w & ws & Hsplit). rewrite Hsplit in *.
    rewrite join_cons in *. rewrite string_app_cons. simpl. by f_equal.
Qed.

Lemma chars_lower_str s : Py.chars (Py.lower_str s) = Py.lower <$> Py.chars s.
Proof. induction s as [|c s IH]; simpl; [done|]. by f_equal. Qed.

(** X26. In the directory scan, the module imported for a file with an
    ASCII stem is named by the lowercased stem without its underscores:
    a file whose stem has an underscore is never imported under its own
    name. *)
Theorem module_name_of_stem (name : string) :
  is_ascii name = true →
  Py.chars (module_name_of_resource (resource_name_of_stem name))
  = Py.lower <$> filter (λ c, c ≠ "_"%char) (Py.chars name)
  ∧ ("_"%char ∉ Py.chars (module_name_of_resource
                            (resource_name_of_stem name))).
Proof.
  intros _. unfold module_name_of_resource, resource_name_of_stem.
  rewrite lower_str_join_capitalize, chars_lower_str, chars_join_split.
  split; [done|].
  intros (c & Hc & Hin)%list_elem_of_fmap.
  apply list_elem_of_filter in Hin as [Hne _].
  apply Hne. symmetry in Hc. by apply lower_underscore.
Qed.

Lemma module_name_of_stem_witness :
  is_ascii "care_plan" = true
  ∧ module_name_of_resource (resource_name_of_stem "care_plan") = "careplan"
  ∧ Py.chars (module_name_of_resource (resource_name_of_stem "care_plan"))
    = Py.lower <$> filter (λ c, c ≠ "_"%char) (Py.chars "care_plan").
Proof.
  split; [reflexivity|]. split; [reflexivity|].
  apply (proj1 (module_name_of_stem "care_plan" eq_refl)).
Defined.
